(** * CSE dividend scraper: a shallow embedding of [cse_dividend_scraper.py]

    The development follows the script from the bottom up: characters and
    the regular expressions of the [re] module, [datetime.strptime], the
    BeautifulSoup tree, [extract_dividend_data], the crawl loop of
    [scrape_dividend_announcements] and [filter_by_month]. *)

From stdpp Require Import gmap strings list fin_maps.
From Stdlib Require Import Ascii ZArith Lia.

Set Warnings "-register-all".

(** ** Text

    A Python [str] is a sequence of code points.  The embedding keeps the
    code points below 256, so a character is an [ascii] and a [str] is a
    list of them; string literals are read as such lists. *)

Abbreviation str := (list ascii).
Coercion String.list_ascii_of_string : string >-> list.

Definition code (c : ascii) : N := N_of_ascii c.

Definition between (lo hi : N) (c : ascii) : bool :=
  ((lo <=? code c) && (code c <=? hi))%N.

(** [\d]: the decimal digits (below 256 these are 0-9 only). *)
Definition is_digit (c : ascii) : bool := between 48 57 c.

(** [[A-Z]] and [[A-Za-z]]. *)
Definition is_upper (c : ascii) : bool := between 65 90 c.
Definition is_lower (c : ascii) : bool := between 97 122 c.
Definition is_alpha (c : ascii) : bool := is_upper c || is_lower c.

(** [\s] and [str.isspace]: tab, line feed, vertical tab, form feed,
    carriage return, the four separators 28-31, space, NEL and the
    no-break space. *)
Definition is_space (c : ascii) : bool :=
  between 9 13 c || between 28 32 c
  || (code c =? 133)%N || (code c =? 160)%N.

Definition is_char (c : ascii) : ascii → bool := Ascii.eqb c.

(** [str.lower] on one character. *)
Definition lower (c : ascii) : ascii :=
  if is_upper c then ascii_of_N (code c + 32) else c.

(** ** Regular expressions

    The fragment of [re] syntax that the script and [_strptime] use.
    Repetition is only ever applied to a single character class there
    ([\s*], [[A-Z]+], [\d{2}]), so [Star] takes a class. *)

Inductive regex : Type :=
| Eps
| Chr (c : ascii)
| Cls (p : ascii → bool)
| Cat (r1 r2 : regex)
| Alt (r1 r2 : regex)
| Opt (r : regex)
| Star (p : ascii → bool)
| Group (n : nat) (r : regex)
| Eos.

Declare Scope regex_scope.
Delimit Scope regex_scope with re.
Bind Scope regex_scope with regex.
Infix "⋅" := Cat (at level 40, left associativity) : regex_scope.

(** [p+] *)
Definition Plus (p : ascii → bool) : regex := Cat (Cls p) (Star p).

(** [p{n}] *)
Fixpoint Rep (n : nat) (p : ascii → bool) : regex :=
  match n with
  | O => Eps
  | S n' => Cat (Cls p) (Rep n' p)
  end.

(** A literal word. *)
Fixpoint Lit (w : str) : regex :=
  match w with
  | [] => Eps
  | c :: w' => Cat (Chr c) (Lit w')
  end.

(** The groups captured so far, by group number. *)
Abbreviation captures := (gmap nat str).

(** The backtracking matcher, in continuation-passing style: [k] is
    what remains to be matched after [r].  Alternatives are tried in the
    order [re] tries them: left before right, present before absent, longer
    repetition before shorter. *)
Section Backtrack.
Context {A : Type}.

Fixpoint star_loop (p : ascii → bool) (s : str) (k : str → option A)
  : option A :=
  match s with
  | c :: s' =>
      if p c then
        match star_loop p s' k with
        | Some x => Some x
        | None => k s
        end
      else k s
  | [] => k s
  end.

Fixpoint backtrack (r : regex) (s : str) (g : captures)
    (k : str → captures → option A) : option A :=
  match r with
  | Eps => k s g
  | Chr c =>
      match s with
      | c' :: s' => if Ascii.eqb c c' then k s' g else None
      | [] => None
      end
  | Cls p =>
      match s with
      | c' :: s' => if p c' then k s' g else None
      | [] => None
      end
  | Cat r1 r2 => backtrack r1 s g (λ s' g', backtrack r2 s' g' k)
  | Alt r1 r2 =>
      match backtrack r1 s g k with
      | Some x => Some x
      | None => backtrack r2 s g k
      end
  | Opt r1 =>
      match backtrack r1 s g k with
      | Some x => Some x
      | None => k s g
      end
  | Star p => star_loop p s (λ s', k s' g)
  | Group n r1 =>
      backtrack r1 s g
        (λ s' g', k s' (<[n := take (length s - length s') s]> g'))
  | Eos =>
      match s with
      | [] => k s g
      | [c] => if Ascii.eqb c "010" then k s g else None
      | _ => None
      end
  end.
End Backtrack.

(** A match object: where the match starts and ends, and its groups. *)
Record match_obj : Type := MatchObj {
  m_start : nat;
  m_end : nat;
  m_groups : captures
}.

(** [m.group(n)].  Python gives [None] for a group that took no part in
    the match; in every pattern below group 1 lies on every path. *)
Definition group (m : match_obj) (n : nat) : str :=
  default [] (m_groups m !! n).

(** Try [r] on the suffix [s] of the subject that starts at [pos]. *)
Definition match_at (r : regex) (s : str) (pos : nat) : option match_obj :=
  backtrack r s ∅
    (λ s' g, Some (MatchObj pos (pos + (length s - length s')) g)).

Fixpoint search_from (r : regex) (s : str) (pos : nat) : option match_obj :=
  match match_at r s pos with
  | Some m => Some m
  | None =>
      match s with
      | [] => None
      | _ :: s' => search_from r s' (S pos)
      end
  end.

(** [re.search(r, s)] and [re.match(r, s)]. *)
Definition re_search (r : regex) (s : str) : option match_obj :=
  search_from r s 0.

Definition re_match (r : regex) (s : str) : option match_obj :=
  match_at r s 0.

(** The patterns of [extract_dividend_data]. *)

(** [\d{2}c[A-Za-z]{3}c\d{4}] for a separator [c]: with a dash the date
    of the titles and of the announcement line, with a dot the XD date. *)
Definition date_with (c : ascii) : regex :=
  (Rep 2 is_digit ⋅ Chr c ⋅ Rep 3 is_alpha ⋅ Chr c ⋅ Rep 4 is_digit)%re.

Definition dash_date : regex := date_with "-".
Definition dot_date : regex := date_with ".".

(** [\s*-?\s*], the separator after every label. *)
Definition sep : regex := (Star is_space ⋅ Opt (Chr "-") ⋅ Star is_space)%re.

(** [(\d{2}-[A-Za-z]{3}-\d{4})] *)
Definition title_date_re : regex := Group 1 dash_date.

(** [-\s+([A-Z]+)\s*$] *)
Definition code_re : regex :=
  (Chr "-" ⋅ Plus is_space ⋅ Group 1 (Plus is_upper) ⋅ Star is_space ⋅ Eos)%re.

(** [Date of (?:Initial )?Announcement:\s*-?\s*(\d{2}-[A-Za-z]{3}-\d{4})] *)
Definition ann_date_re : regex :=
  (Lit "Date of " ⋅ Opt (Lit "Initial ") ⋅ Lit "Announcement:" ⋅ sep
   ⋅ Group 1 dash_date)%re.

(** [XD:\s*-?\s*(\d{2}\.[A-Za-z]{3}\.\d{4})] *)
Definition xd_re : regex := (Lit "XD:" ⋅ sep ⋅ Group 1 dot_date)%re.

(** [XD:\s*-?\s*TBA] *)
Definition xd_tba_re : regex := (Lit "XD:" ⋅ sep ⋅ Lit "TBA")%re.

(** [Financial Year:\s*-?\s*([\d\s/]+)] *)
Definition fy_re : regex :=
  (Lit "Financial Year:" ⋅ sep
   ⋅ Group 1 (Plus (λ c, is_digit c || is_space c || is_char "/" c)))%re.

(** [Rate of Dividend:\s*-?\s*Rs\.\s*([\d.]+)\s*per share] *)
Definition rate_re : regex :=
  (Lit "Rate of Dividend:" ⋅ sep ⋅ Lit "Rs." ⋅ Star is_space
   ⋅ Group 1 (Plus (λ c, is_digit c || is_char "." c))
   ⋅ Star is_space ⋅ Lit "per share")%re.

(** [post|entry], the loose class selector of the crawler. *)
Definition post_or_entry_re : regex := Alt (Lit "post") (Lit "entry").

(** ** [datetime.strptime(s, '%d-%b-%Y')]

    [_strptime] turns the format into a regular expression with one named
    group per directive, compiled with [re.IGNORECASE]:
    [(?P<d>3[0-1]|[1-2]\d|0[1-9]|[1-9]| [1-9])-(?P<b>jan|feb|...|dec)-(?P<Y>\d\d\d\d)].
    The groups d, b and Y are numbered 1, 2 and 3 here. *)

Record datetime : Type := Datetime { year : Z; month : Z; day : Z }.

(** A letter of the pattern under [re.IGNORECASE]. *)
Definition is_char_i (c : ascii) : ascii → bool :=
  λ c', Ascii.eqb c (lower c').

Fixpoint Lit_i (w : str) : regex :=
  match w with
  | [] => Eps
  | c :: w' => Cat (Cls (is_char_i c)) (Lit_i w')
  end.

(** [locale_time.a_month], the abbreviated month names of the C locale in
    lower case; index 0 is the empty string. *)
Definition a_month : list str :=
  [ ("" : str); ("jan" : str); ("feb" : str); ("mar" : str); ("apr" : str);
    ("may" : str); ("jun" : str); ("jul" : str); ("aug" : str);
    ("sep" : str); ("oct" : str); ("nov" : str); ("dec" : str) ].

Definition day_re : regex :=
  Alt (Chr "3" ⋅ Cls (between 48 49))
  (Alt (Cls (between 49 50) ⋅ Cls is_digit)
  (Alt (Chr "0" ⋅ Cls (between 49 57))
  (Alt (Cls (between 49 57))
       (Chr " " ⋅ Cls (between 49 57))))).

Definition month_re : regex :=
  foldr (λ name r, Alt (Lit_i name) r) (Lit_i "dec")
    (take 11 (drop 1 a_month)).

Definition format_regex : regex :=
  (Group 1 day_re ⋅ Chr "-" ⋅ Group 2 month_re ⋅ Chr "-"
   ⋅ Group 3 (Rep 4 is_digit))%re.

(** [str.strip], [str.lower], [int] on a string of digits, [list.index]. *)
Fixpoint lstrip (s : str) : str :=
  match s with
  | c :: s' => if is_space c then lstrip s' else s
  | [] => []
  end.

Definition rstrip (s : str) : str := rev (lstrip (rev s)).
Definition strip (s : str) : str := rstrip (lstrip s).

Definition int (s : str) : Z :=
  fold_left (λ n c, 10 * n + (Z.of_N (code c) - 48))%Z (strip s) 0%Z.

Fixpoint index (l : list str) (x : str) : Z :=
  match l with
  | [] => 0
  | y :: l' => if decide (x = y) then 0 else 1 + index l' x
  end%Z.

(** [datetime._is_leap] and [datetime._days_in_month]. *)
Definition is_leap (y : Z) : bool :=
  ((y mod 4 =? 0) && (negb (y mod 100 =? 0) || (y mod 400 =? 0)))%Z.

Definition days_in_month (y m : Z) : Z :=
  (if (m =? 2) && is_leap y then 29
   else if m =? 2 then 28
   else if (m =? 4) || (m =? 6) || (m =? 9) || (m =? 11) then 30
   else 31)%Z.

(** The [datetime] constructor: [None] stands for its [ValueError]. *)
Definition datetime_new (y m d : Z) : option datetime :=
  if ((1 <=? y) && (y <=? 9999) && (1 <=? m) && (m <=? 12)
      && (1 <=? d) && (d <=? days_in_month y m))%Z
  then Some (Datetime y m d)
  else None.

(** [None] stands for [ValueError]: the string does not match the format,
    unconverted data remains, or the day is out of range for the month. *)
Definition strptime (data_string : str) : option datetime :=
  match re_match format_regex data_string with
  | None => None
  | Some found =>
      if negb (length data_string =? m_end found)%nat then None
      else
        datetime_new (int (group found 3))
                     (index a_month (lower <$> group found 2))
                     (int (group found 1))
  end.

(** ** The BeautifulSoup tree

    A parsed page is a tree of tags and strings.  Of a tag's attributes the
    script reads [class] (which the parser splits into a list of tokens)
    and [href]. *)

Record attrs : Type := Attrs {
  attr_class : option (list str);
  attr_href : option str
}.

Inductive node : Type :=
| NavigableString (s : str)
| Tag (name : str) (a : attrs) (contents : list node).

(** [tag.descendants]: every node below the tag, in document order. *)
Fixpoint descendants (n : node) : list node :=
  match n with
  | NavigableString _ => []
  | Tag _ _ contents => flat_map (λ c, c :: descendants c) contents
  end.

(** [tag.get_text()]: the strings below the tag, concatenated. *)
Fixpoint get_text (n : node) : str :=
  match n with
  | NavigableString s => s
  | Tag _ _ contents => concat (map get_text contents)
  end.

(** [' '.join(tokens)] *)
Fixpoint join_spaces (tokens : list str) : str :=
  match tokens with
  | [] => []
  | [t] => t
  | t :: ts => t ++ " " ++ join_spaces ts
  end.

(** The [class_] argument of [find] and [find_all]. *)
Inductive class_filter : Type :=
| AnyClass
| ClassIs (s : str)
| ClassSearch (r : regex).

(** A multi-valued attribute matches when one of its tokens does, or when
    the tokens joined by spaces do. *)
Definition class_matches (f : class_filter) (a : attrs) : bool :=
  match f with
  | AnyClass => true
  | ClassIs s =>
      match attr_class a with
      | None => false
      | Some tokens =>
          existsb (λ t, bool_decide (t = s)) tokens
          || bool_decide (join_spaces tokens = s)
      end
  | ClassSearch r =>
      match attr_class a with
      | None => false
      | Some tokens =>
          existsb (λ t, bool_decide (is_Some (re_search r t))) tokens
          || bool_decide (is_Some (re_search r (join_spaces tokens)))
      end
  end.

Definition selected (names : list str) (f : class_filter) (n : node) : bool :=
  match n with
  | NavigableString _ => false
  | Tag name a _ => bool_decide (name ∈ names) && class_matches f a
  end.

(** [tag.find_all(names, class_=f)] and [tag.find(names, class_=f)]. *)
Definition find_all (names : list str) (f : class_filter) (n : node)
  : list node :=
  List.filter (selected names f) (descendants n).

Definition find (names : list str) (f : class_filter) (n : node)
  : option node :=
  head (find_all names f n).

(** ** [extract_dividend_data] *)

(** A record is the [dict] the extractor builds: field name to text. *)
Abbreviation record := (gmap string str).

(** [s.split('\n')] *)
Fixpoint split_lines (s : str) : list str :=
  match s with
  | [] => [[]]
  | c :: s' =>
      if Ascii.eqb c "010" then [] :: split_lines s'
      else
        match split_lines s' with
        | l :: ls => (c :: l) :: ls
        | [] => [[c]]
        end
  end.

(** [s.replace('.', '-')] *)
Definition replace_dots (s : str) : str :=
  map (λ c, if Ascii.eqb c "." then "-"%char else c) s.

Definition nonempty (s : str) : bool :=
  match s with
  | [] => false
  | _ => true
  end.

(** [None] is the script's [return None]; the chain of optional fields
    follows the statements of the function in order. *)
Definition extract_dividend_data (post : node) : option record :=
  match find [("h3" : str); ("h2" : str)] AnyClass post with
  | None => None
  | Some title_elem =>
  match find [("a" : str)] AnyClass title_elem with
  | None => None
  | Some title_link =>
  let title := get_text title_link in
  match re_search title_date_re title with
  | None => None
  | Some date_match =>
  let data : record := <["Post_Date" := group date_match 1]> ∅ in
  let data : record :=
    match re_search code_re title with
    | Some code_match => <["Company_Code" := group code_match 1]> data
    | None => data
    end in
  let content := get_text post in
  let lines := List.filter nonempty (strip <$> split_lines content) in
  let data : record :=
    match lines with
    | _ :: line1 :: _ => <["Company_Name" := line1]> data
    | _ => data
    end in
  let data : record :=
    match re_search ann_date_re content with
    | Some ann_date_match =>
        <["Date_of_Announcement" := group ann_date_match 1]> data
    | None => data
    end in
  let data : record :=
    match re_search xd_re content with
    | Some xd_match => <["XD_Date" := replace_dots (group xd_match 1)]> data
    | None =>
        match re_search xd_tba_re content with
        | Some _ => <["XD_Date" := ("TBA" : str)]> data
        | None => data
        end
    end in
  let data : record :=
    match re_search fy_re content with
    | Some fy_match => <["Financial_Year" := strip (group fy_match 1)]> data
    | None => data
    end in
  let data : record :=
    match re_search rate_re content with
    | Some rate_match =>
        <["Dividend_Rate" := "Rs. " ++ group rate_match 1]> data
    | None => data
    end in
  Some data
  end end end.

(** ** [scrape_dividend_announcements] *)

(** What [get_blogspot_page] does with a URL: it raises, or it returns the
    parsed page. *)
Inductive response : Type :=
| Raises (e : str)
| Returns (soup : node).

(** The lines the crawl prints. *)
Inductive message : Type :=
| MsgScraping (num_years : Z)
| MsgWait
| MsgError (url e : str)
| MsgProgress (page_count : Z) (found : nat)
| MsgTotal (found : nat).

(** The variables of the crawl loop.  [requests] is the list of URLs
    handed to [get_blogspot_page] so far, in order; [printed] is the
    output. *)
Record crawl_state : Type := Crawl {
  page_urls : list str;
  visited : gset str;
  page_count : Z;
  all_dividends : list record;
  requests : list str;
  printed : list message
}.

Definition base_url : str := "https://cse-dividend-announcements.blogspot.com/".

Definition has_key (k : string) (d : record) : bool :=
  bool_decide (is_Some (d !! k)).

(** A [dict] is true when it is not empty. *)
Definition truthy (d : record) : bool := negb (bool_decide (d = ∅)).

(** The [for post in posts] loop.  It works on the queue and on the
    accumulator; [break] ends the recursion, the bare [except: pass]
    goes on with the next post. *)
Fixpoint scan_posts (cutoff_year : Z) (posts : list node)
    (page_urls : list str) (all_dividends : list record)
  : list str * list record :=
  match posts with
  | [] => (page_urls, all_dividends)
  | post :: posts' =>
      match extract_dividend_data post with
      | Some dividend_data =>
          if truthy dividend_data
             && has_key "Date_of_Announcement" dividend_data
          then
            match
              strptime (default [] (dividend_data !! "Date_of_Announcement"))
            with
            | Some ann_date =>
                if (cutoff_year <=? year ann_date)%Z then
                  scan_posts cutoff_year posts' page_urls
                    (all_dividends ++ [dividend_data])
                else if (year ann_date <? cutoff_year)%Z then
                  ([], all_dividends)
                else scan_posts cutoff_year posts' page_urls all_dividends
            | None => scan_posts cutoff_year posts' page_urls all_dividends
            end
          else scan_posts cutoff_year posts' page_urls all_dividends
      | None => scan_posts cutoff_year posts' page_urls all_dividends
      end
  end.

(** The posts of a page: the primary selector, and the looser one when it
    finds nothing. *)
Definition find_posts (soup : node) : list node :=
  match find_all [("div" : str)] (ClassIs "post-outer") soup with
  | [] =>
      find_all [("div" : str); ("article" : str)]
        (ClassSearch post_or_entry_re) soup
  | posts => posts
  end.

(** The pagination step: the queue after looking for the older-posts
    link. *)
Definition follow_older_link (soup : node) (visited : gset str)
    (page_urls : list str) : list str :=
  match find [("a" : str)] (ClassIs "blog-pager-older-link") soup with
  | Some (Tag _ a _) =>
      match attr_href a with
      | Some next_url =>
          if nonempty next_url then
            if decide (next_url ∈ visited) then page_urls
            else page_urls ++ [next_url]
          else page_urls
      | None => page_urls
      end
  | _ => page_urls
  end.

Section Crawl.
(** The outside world: the fetcher and the clock. *)
Variable get_blogspot_page : str → response.
Variable current_year : Z.
Variable num_years : Z.

Definition cutoff_year : Z := current_year - num_years.
Definition max_pages : Z := num_years * 20.

(** One pass through the body of the [while] loop, after [url] has been
    popped off the queue and [rest] is what remains of it. *)
Definition iteration (url : str) (rest : list str) (st : crawl_state)
  : crawl_state :=
  if decide (url ∈ visited st) then
    Crawl rest (visited st) (page_count st) (all_dividends st)
      (requests st) (printed st)
  else
    let visited' := {[url]} ∪ visited st in
    let page_count' := (page_count st + 1)%Z in
    let requests' := requests st ++ [url] in
    match get_blogspot_page url with
    | Raises e =>
        Crawl rest visited' page_count' (all_dividends st) requests'
          (printed st ++ [MsgError url e])
    | Returns soup =>
        let '(queue, found) :=
          scan_posts cutoff_year (find_posts soup) rest (all_dividends st) in
        let queue' := follow_older_link soup visited' queue in
        let printed' :=
          if (page_count' mod 5 =? 0)%Z
          then printed st ++ [MsgProgress page_count' (length found)]
          else printed st in
        Crawl queue' visited' page_count' found requests' printed'
    end.

(** [while page_urls and page_count < max_pages]: one step of the loop,
    or [None] when the condition is false. *)
Definition step (st : crawl_state) : option crawl_state :=
  match page_urls st with
  | [] => None
  | url :: rest =>
      if (page_count st <? max_pages)%Z then Some (iteration url rest st)
      else None
  end.

Fixpoint crawl_loop (fuel : nat) (st : crawl_state) : option crawl_state :=
  match step st with
  | None => Some st
  | Some st' =>
      match fuel with
      | O => None
      | S fuel' => crawl_loop fuel' st'
      end
  end.

Definition initial : crawl_state :=
  Crawl [base_url] ∅ 0 [] [] [MsgScraping num_years; MsgWait].

(** The state when the loop is left; the fuel is the length of the
    queue plus the pages still allowed. *)
Definition crawl : option crawl_state :=
  crawl_loop (1 + Z.to_nat max_pages) initial.

(** The function returns the accumulator, after a last line of output.
    [None] would mean that the fuel ran out before the loop ended. *)
Definition scrape_dividend_announcements
  : option (list record * list message) :=
  (λ st, (all_dividends st,
          printed st ++ [MsgTotal (length (all_dividends st))])) <$> crawl.

(** The states the loop passes through. *)
Inductive reachable : crawl_state → Prop :=
| reachable_initial : reachable initial
| reachable_step st st' :
    reachable st → step st = Some st' → reachable st'.
End Crawl.

(** ** [filter_by_month] *)

Definition filter_by_month (dividends : list record) (month_number : Z)
  : list record :=
  fold_left
    (λ filtered div,
       if has_key "Date_of_Announcement" div then
         match strptime (default [] (div !! "Date_of_Announcement")) with
         | Some ann_date =>
             if (month ann_date =? month_number)%Z then filtered ++ [div]
             else filtered
         | None => filtered
         end
       else filtered)
    dividends [].

(** ** [main]: the two questions

    [main] asks for the number of years and for the month, each in a
    [while True] loop that is left by [break] on a valid answer.  The
    answers come from the lines of the standard input; [input] raises
    [EOFError] when there is none left, and the loops do not catch it. *)

(** The lines the two loops print. *)
Inductive console_line : Type :=
| AskYears
| AskMonth
| SayPositive
| SayInvalid
| SayRange.

Definition month_names : list str :=
  [ ("January" : str); ("February" : str); ("March" : str);
    ("April" : str); ("May" : str); ("June" : str); ("July" : str);
    ("August" : str); ("September" : str); ("October" : str);
    ("November" : str); ("December" : str) ].

(** [l[i]] on a Python list: a negative index counts from the end, and
    [None] stands for [IndexError]. *)
Definition getitem {A} (l : list A) (i : Z) : option A :=
  if (0 <=? i)%Z then l !! Z.to_nat i
  else if (0 <=? i + Z.of_nat (length l))%Z
       then l !! Z.to_nat (i + Z.of_nat (length l))
       else None.

Section Questions.
(** [int] on a string: [None] stands for its [ValueError]. *)
Variable parse_int : str → option Z.

(** [int(years_input) if years_input else 5] and [int(month_input)], on
    the line read. *)
Definition read_years (line : str) : option Z :=
  let years_input := strip line in
  if nonempty years_input then parse_int years_input else Some 5%Z.

Definition read_month (line : str) : option Z :=
  let month_input := strip line in
  parse_int month_input.

(** The first loop.  [None] is the [EOFError] of [input]. *)
Fixpoint ask_years (stdin : list str) (out : list console_line)
  : option (Z * list str * list console_line) :=
  match stdin with
  | [] => None
  | line :: stdin' =>
      match read_years line with
      | Some num_years =>
          if (0 <? num_years)%Z then
            Some (num_years, stdin', out ++ [AskYears])
          else ask_years stdin' (out ++ [AskYears; SayPositive])
      | None => ask_years stdin' (out ++ [AskYears; SayInvalid])
      end
  end.

(** The second loop. *)
Fixpoint ask_month (stdin : list str) (out : list console_line)
  : option (Z * list str * list console_line) :=
  match stdin with
  | [] => None
  | line :: stdin' =>
      match read_month line with
      | Some month_number =>
          if ((1 <=? month_number) && (month_number <=? 12))%Z then
            Some (month_number, stdin', out ++ [AskMonth])
          else ask_month stdin' (out ++ [AskMonth; SayRange])
      | None => ask_month stdin' (out ++ [AskMonth; SayInvalid])
      end
  end.

(** The two loops one after the other, and the name of the month that
    [main] prints next. *)
Definition ask (stdin : list str)
  : option (Z * Z * list str * list console_line) :=
  match ask_years stdin [] with
  | None => None
  | Some (num_years, stdin', out) =>
      match ask_month stdin' out with
      | None => None
      | Some (month_number, stdin'', out') =>
          Some (num_years, month_number, stdin'', out')
      end
  end.

(** What the loops answer to a line that they do not accept. *)
Definition years_complaint (line : str) : list console_line :=
  [AskYears; match read_years line with
             | Some _ => SayPositive
             | None => SayInvalid
             end].

Definition month_complaint (line : str) : list console_line :=
  [AskMonth; match read_month line with
             | Some _ => SayRange
             | None => SayInvalid
             end].

Definition good_years (line : str) : bool :=
  match read_years line with
  | Some num_years => (0 <? num_years)%Z
  | None => false
  end.

Definition good_month (line : str) : bool :=
  match read_month line with
  | Some month_number => ((1 <=? month_number) && (month_number <=? 12))%Z
  | None => false
  end.
End Questions.

(** ** What a pattern matches

    [matches r w rest g g'] says that [r] can match the word [w] when
    [rest] follows it, taking the captured groups from [g] to [g'].  It is
    the declarative reading of the pattern, with no order among the
    alternatives. *)
Fixpoint matches (r : regex) (w rest : str) (g g' : captures) : Prop :=
  match r with
  | Eps => w = [] ∧ g' = g
  | Chr c => w = [c] ∧ g' = g
  | Cls p => ∃ c, p c = true ∧ w = [c] ∧ g' = g
  | Cat r1 r2 =>
      ∃ w1 w2 g1, w = w1 ++ w2
        ∧ matches r1 w1 (w2 ++ rest) g g1 ∧ matches r2 w2 rest g1 g'
  | Alt r1 r2 => matches r1 w rest g g' ∨ matches r2 w rest g g'
  | Opt r1 => matches r1 w rest g g' ∨ (w = [] ∧ g' = g)
  | Star p => Forall (λ c, p c = true) w ∧ g' = g
  | Group n r1 => ∃ g0, matches r1 w rest g g0 ∧ g' = <[n := w]> g0
  | Eos => w = [] ∧ g' = g ∧ (rest = [] ∨ rest = ["010"%char])
  end.

(** A pattern occurs in [text] after the prefix [pre]. *)
Definition occurs_at (r : regex) (text pre : str) (g : captures) : Prop :=
  ∃ w rest, text = pre ++ w ++ rest ∧ matches r w rest ∅ g.

(** ** The shapes of the specification, in plain terms *)

(** No tag below [n] has one of the names; [t] is the first tag below [n],
    in document order, that has one. *)
Definition lacks_tag (names : list str) (n : node) : Prop :=
  Forall (λ d, selected names AnyClass d = false) (descendants n).

Definition first_tag (names : list str) (n t : node) : Prop :=
  ∃ before after,
    descendants n = before ++ t :: after
    ∧ Forall (λ d, selected names AnyClass d = false) before
    ∧ selected names AnyClass t = true.

(** Two digits, [c], three letters, [c], four digits. *)
Definition has_date_form (c : ascii) (d : str) : bool :=
  match d with
  | [d1; d2; c1; m1; m2; m3; c2; y1; y2; y3; y4] =>
      is_digit d1 && is_digit d2 && Ascii.eqb c c1
      && is_alpha m1 && is_alpha m2 && is_alpha m3 && Ascii.eqb c c2
      && is_digit y1 && is_digit y2 && is_digit y3 && is_digit y4
  | _ => false
  end.

Definition spaces (w : str) : Prop := Forall (λ c, is_space c = true) w.

(** After the prefix [pre], [text] reads: the label, optional white space,
    an optional dash, optional white space, and then [value]. *)
Definition labelled_at (label text pre value : str) : Prop :=
  ∃ ws1 dash ws2 post,
    text = pre ++ label ++ ws1 ++ dash ++ ws2 ++ value ++ post
    ∧ spaces ws1 ∧ (dash = [] ∨ dash = ["-"%char]) ∧ spaces ws2.

(** [text] holds a date token of the given form after the prefix [pre]. *)
Definition date_token_at (c : ascii) (text pre d : str) : Prop :=
  ∃ post, text = pre ++ d ++ post ∧ has_date_form c d = true.

(** The XD line with a dotted date, and the XD line with TBA. *)
Definition xd_date_at (text pre d : str) : Prop :=
  labelled_at "XD:" text pre d ∧ has_date_form "." d = true.

Definition xd_tba_at (text pre : str) : Prop :=
  labelled_at "XD:" text pre "TBA".

(** [title] ends in a dash, white space, the token [tok] of capital
    letters, and possibly white space after it. *)
Definition ends_in_code (title tok : str) : Prop :=
  ∃ pre ws ws',
    title = pre ++ "-" ++ ws ++ tok ++ ws'
    ∧ ws ≠ [] ∧ spaces ws
    ∧ tok ≠ [] ∧ Forall (λ c, is_upper c = true) tok
    ∧ spaces ws'.

(** What follows the separator [\s*-?\s*] at the head of [t]. *)
Definition after_sep (t : str) : str :=
  lstrip
    match lstrip t with
    | c :: t' => if Ascii.eqb c "-" then t' else c :: t'
    | [] => []
    end.

(** The capital letters at the head of [s], and with them the token that
    [title] ends in once its trailing white space is dropped. *)
Fixpoint take_upper (s : str) : str :=
  match s with
  | c :: s' => if is_upper c then c :: take_upper s' else []
  | [] => []
  end.

Definition trailing_token (title : str) : str :=
  rev (take_upper (lstrip (rev title))).

(** The seven fields the extractor may set. *)
Definition field_names : list string :=
  ["Post_Date"; "Company_Code"; "Company_Name"; "Date_of_Announcement";
   "XD_Date"; "Financial_Year"; "Dividend_Rate"].

(** The characters of a financial year and of a rate. *)
Definition is_fy_char (c : ascii) : bool :=
  is_digit c || is_space c || is_char "/" c.

Definition is_rate_char (c : ascii) : bool := is_digit c || is_char "." c.

(** A line of white space only. *)
Definition blank (line : str) : bool := forallb is_space line.

(** The announcement line: either label, the separator, a dashed date. *)
Definition ann_date_at (text pre d : str) : Prop :=
  (labelled_at "Date of Announcement:" text pre d
   ∨ labelled_at "Date of Initial Announcement:" text pre d)
  ∧ has_date_form "-" d = true.

(** ** The crawl and the filter, in plain terms *)

(** The parsed announcement date of a record, when it has one. *)
Definition announcement_date (d : record) : option datetime :=
  match d !! "Date_of_Announcement" with
  | Some s => strptime s
  | None => None
  end.

(** A record announced in the given month. *)
Definition announced_in (month_number : Z) (d : record) : bool :=
  match announcement_date d with
  | Some ann_date => (month ann_date =? month_number)%Z
  | None => false
  end.

(** A post whose record is dated before the cutoff year, and the record
    of a post dated in or after it. *)
Definition below_cutoff (cutoff : Z) (post : node) : bool :=
  match extract_dividend_data post with
  | Some d =>
      match announcement_date d with
      | Some ann_date => (year ann_date <? cutoff)%Z
      | None => false
      end
  | None => false
  end.

Definition in_range (cutoff : Z) (post : node) : option record :=
  match extract_dividend_data post with
  | Some d =>
      match announcement_date d with
      | Some ann_date => if (cutoff <=? year ann_date)%Z then Some d else None
      | None => None
      end
  | None => None
  end.

(** The loop goes from one state to the next. *)
Definition steps (fetch : str → response) (current_year num_years : Z)
  : relation crawl_state :=
  rtc (λ st st', step fetch current_year num_years st = Some st').

(** The queue holds at most one URL, and never one already visited. *)
Definition short_fresh_queue (st : crawl_state) : Prop :=
  length (page_urls st) ≤ 1 ∧ ∀ u, u ∈ page_urls st → u ∉ visited st.

(** A record whose announcement date parses. *)
Definition dated (d : record) : bool :=
  bool_decide (is_Some (announcement_date d)).

(** The sizes of the twelve monthly selections. *)
Definition monthly_counts (dividends : list record) : list nat :=
  (λ m, length (filter_by_month dividends (Z.of_nat m))) <$> seq 1 12.

(** ** Sample pages *)

Definition nl : str := ["010"%char].

(** A post as the blog lays it out: the title link in an [h3], the
    body text after it. *)
Definition sample_link (title : str) : node :=
  Tag "a" (Attrs None (Some ("/post.html" : str))) [ NavigableString title ].

Definition sample_heading (title : str) : node :=
  Tag "h3" (Attrs (Some [("post-title" : str)]) None) [ sample_link title ].

Definition sample_post (title body : str) : node :=
  Tag "div" (Attrs (Some [("post-outer" : str)]) None)
    [ sample_heading title; NavigableString body ].

(** A container that holds text only, with no heading. *)
Definition bare_post (body : str) : node :=
  Tag "div" (Attrs (Some [("post-outer" : str)]) None)
    [ NavigableString body ].

Definition older_link (href : str) : node :=
  Tag "a" (Attrs (Some [("blog-pager-older-link" : str)]) (Some href))
    [ NavigableString "Older Posts" ].

Definition sample_page (posts : list node) (older : list node) : node :=
  Tag "[document]" (Attrs None None)
    [ Tag "body" (Attrs None None) (posts ++ older) ].

Definition post_2024 : node :=
  sample_post "05-Jun-2024 Final Dividend - ABC"
    (nl ++ "ABC Holdings PLC" ++ nl
     ++ "Date of Announcement: - 03-Jun-2024" ++ nl
     ++ "XD: - 05.Jun.2024" ++ nl
     ++ "Financial Year: 2023/2024" ++ nl
     ++ "Rate of Dividend: Rs. 2.50 per share" ++ nl).

Definition post_tba : node :=
  sample_post "11-Jul-2024 Interim Dividend - XYZ"
    (nl ++ "XYZ PLC" ++ nl
     ++ "Date of Initial Announcement: 10-Jul-2024" ++ nl
     ++ "XD: - TBA" ++ nl).

Definition post_2010 : node :=
  sample_post "02-Mar-2010 Final Dividend - OLD"
    (nl ++ "Old Company PLC" ++ nl
     ++ "Date of Announcement: - 01-Mar-2010" ++ nl).

(** 31 February: the text has the form of a date, the calendar has no
    such day. *)
Definition post_feb31 : node :=
  sample_post "01-Mar-2024 Final Dividend - FEB"
    (nl ++ "February PLC" ++ nl
     ++ "Date of Announcement: - 31-Feb-2024" ++ nl).

Definition post_no_date_in_title : node :=
  sample_post "Interim Dividend - ABC"
    (nl ++ "ABC Holdings PLC" ++ nl
     ++ "Date of Announcement: - 03-Jun-2024" ++ nl).

Definition page2_url : str := base_url ++ "search?updated-max=2".
Definition page3_url : str := base_url ++ "search?updated-max=3".

(** A two-page blog whose second page reaches back before the cutoff and
    still links to a third page; the third page cannot be loaded. *)
Definition sample_blog (url : str) : response :=
  if decide (url = base_url) then
    Returns
      (sample_page [post_2024; post_feb31; post_tba] [older_link page2_url])
  else if decide (url = page2_url) then
    Returns
      (sample_page [post_2024; post_2010; post_tba] [older_link page3_url])
  else Raises "HTTPSConnectionPool: Max retries exceeded".

(** The invariant of the loop: the requests made are the visited URLs,
    each of them once, and the page counter counts them. *)
Definition consistent (st : crawl_state) : Prop :=
  NoDup (requests st)
  ∧ (∀ u, u ∈ requests st ↔ u ∈ visited st)
  ∧ page_count st = Z.of_nat (length (requests st)).

(** What the loop may still do: the length of the queue plus the pages
    still allowed. *)
Definition budget (num_years : Z) (st : crawl_state) : nat :=
  length (page_urls st) + Z.to_nat (max_pages num_years - page_count st).

(** The sample blog in 2026 with five years asked for, after the first
    page and after the second. *)
Definition after_page1 : crawl_state :=
  iteration sample_blog 2026 5 base_url [] (initial 5).

Definition after_page2 : crawl_state :=
  iteration sample_blog 2026 5 page2_url [] after_page1.

(** A blog of one page, with one post and no link to older posts. *)
Definition one_page_blog (url : str) : response :=
  Returns (sample_page [post_2024] []).

(** The state of the sample crawl after its third page, whose fetch
    fails. *)
Definition after_page3 : crawl_state :=
  iteration sample_blog 2026 5 page3_url [] after_page2.

(** A sample [int]: the digits of a non-empty string of digits. *)
Definition digits_int (s : str) : option Z :=
  if nonempty s && forallb is_digit s then Some (int s) else None.

(** ** Tactics *)

Ltac explode w :=
  repeat (destruct w as [|? w]; simpl in *; try discriminate; try lia).

Ltac split_Forall :=
  repeat match goal with
         | H : Forall _ (_ :: _) |- _ => apply Forall_cons in H as [? H]
         end.

(** Settle a closed decidable statement by evaluation. *)
Ltac by_eval :=
  lazymatch goal with
  | |- ?P => apply (bool_decide_eq_true_1 P); vm_compute; reflexivity
  end.


(** * Proofs *)

(** ** The model at work *)

Lemma some_by_eval {A} (o : option A) :
  (if o is Some _ then true else false) = true → ∃ x, o = Some x.
Proof. destruct o; [eauto|done]. Qed.

Lemma none_by_eval {A} (o : option A) :
  (if o is Some _ then false else true) = true → o = None.
Proof. by destruct o. Qed.

Example strptime_accepts : strptime "05-Jun-2024" = Some (Datetime 2024 6 5).
Proof. vm_compute. reflexivity. Qed.

Example strptime_ignores_case : strptime "5-jUN-2024" = Some (Datetime 2024 6 5).
Proof. vm_compute. reflexivity. Qed.

Example strptime_leap_day : strptime "29-Feb-2024" = Some (Datetime 2024 2 29).
Proof. vm_compute. reflexivity. Qed.

Example strptime_rejects_feb31 : strptime "31-Feb-2024" = None.
Proof. vm_compute. reflexivity. Qed.

Example strptime_rejects_trailing_text : strptime "05-Jun-2024 " = None.
Proof. vm_compute. reflexivity. Qed.

Example search_skips_to_the_code :
  (λ m, (m_start m, group m 1)) <$> re_search code_re "05-Jun-2024 - ABC"
  = Some (12, ("ABC" : str)).
Proof. vm_compute. reflexivity. Qed.

Example search_needs_space_after_dash :
  (λ m, group m 1) <$> re_search code_re "05-Jun-2024 -ABC" = None.
Proof. vm_compute. reflexivity. Qed.

Example extract_post_2024 :
  (λ k, extract_dividend_data post_2024 ≫= (λ d : record, d !! k))
    <$> ["Post_Date"; "Company_Code"; "Company_Name"; "Date_of_Announcement";
         "XD_Date"; "Financial_Year"; "Dividend_Rate"]
  = [ Some ("05-Jun-2024" : str); Some ("ABC" : str);
      Some ("ABC Holdings PLC" : str); Some ("03-Jun-2024" : str);
      Some ("05-Jun-2024" : str); Some ("2023/2024" : str);
      Some ("Rs. 2.50" : str) ].
Proof. vm_compute. reflexivity. Qed.

Example crawl_sample_blog :
  (λ st, (page_urls st, page_count st, length (all_dividends st),
          requests st)) <$> crawl sample_blog 2026 5
  = Some ([], 3%Z, 3, [base_url; page2_url; page3_url]).
Proof. vm_compute. reflexivity. Qed.

Example filter_sample_blog :
  (λ r, length (filter_by_month r.1 6))
    <$> scrape_dividend_announcements sample_blog 2026 5
  = Some 2.
Proof. vm_compute. reflexivity. Qed.

(** ** The matcher finds what the patterns describe *)

Section BacktrackFacts.
Context {A : Type}.
Implicit Types (k : str → captures → option A).

Lemma star_loop_sound p s (k : str → option A) x :
  star_loop p s k = Some x →
  ∃ w rest, s = w ++ rest ∧ Forall (λ c, p c = true) w ∧ k rest = Some x.
Proof.
  induction s as [|c s IH]; simpl; intros H.
  - exists [], []. auto.
  - destruct (p c) eqn:Hc.
    + destruct (star_loop p s k) as [y|] eqn:Hs.
      * injection H as ->.
        destruct (IH eq_refl) as (w & rest & -> & Hw & Hk).
        exists (c :: w), rest. auto.
      * exists [], (c :: s). auto.
    + exists [], (c :: s). auto.
Qed.

Lemma star_loop_none p s (k : str → option A) :
  star_loop p s k = None →
  ∀ w rest, s = w ++ rest → Forall (λ c, p c = true) w → k rest = None.
Proof.
  induction s as [|c s IH]; simpl; intros H w rest Hs Hw.
  - symmetry in Hs. apply app_eq_nil in Hs as [-> ->]. done.
  - destruct w as [|c' w]; simpl in Hs.
    + subst rest. destruct (p c); [|done].
      by destruct (star_loop p s k).
    + injection Hs as <- ->.
      apply Forall_cons in Hw as [Hc Hw]. rewrite Hc in H.
      destruct (star_loop p (w ++ rest) k) eqn:Hl; [done|].
      eapply IH; eauto.
Qed.

Lemma backtrack_sound r : ∀ s g k x,
  backtrack r s g k = Some x →
  ∃ w rest g', s = w ++ rest ∧ matches r w rest g g' ∧ k rest g' = Some x.
Proof.
  induction r as [|c|p|r1 IH1 r2 IH2|r1 IH1 r2 IH2|r1 IH1|p|n r1 IH1|];
    simpl; intros s g k x H.
  - exists [], s, g. auto.
  - destruct s as [|c' s]; [done|].
    destruct (Ascii.eqb c c') eqn:E; [|done].
    apply Ascii.eqb_eq in E as <-. exists [c], s, g. auto.
  - destruct s as [|c' s]; [done|].
    destruct (p c') eqn:E; [|done].
    exists [c'], s, g. eauto 6.
  - apply IH1 in H as (w1 & rest1 & g1 & -> & H1 & H).
    apply IH2 in H as (w2 & rest & g' & -> & H2 & H).
    exists (w1 ++ w2), rest, g'. rewrite <- app_assoc. eauto 10.
  - destruct (backtrack r1 s g k) as [y|] eqn:E.
    + injection H as ->. apply IH1 in E as (w & rest & g' & ? & ? & ?).
      exists w, rest, g'. split_and!; auto.
    + apply IH2 in H as (w & rest & g' & ? & ? & ?).
      exists w, rest, g'. split_and!; auto.
  - destruct (backtrack r1 s g k) as [y|] eqn:E.
    + injection H as ->. apply IH1 in E as (w & rest & g' & ? & ? & ?).
      exists w, rest, g'. split_and!; auto.
    + exists [], s, g. split_and!; auto.
  - apply star_loop_sound in H as (w & rest & -> & Hw & H).
    exists w, rest, g. auto.
  - apply IH1 in H as (w & rest & g0 & -> & H1 & H).
    rewrite length_app, Nat.add_sub, take_app_length in H.
    exists w, rest, (<[n := w]> g0). eauto.
  - destruct s as [|c [|c' s]]; try done.
    + exists [], [], g. split_and!; auto.
    + destruct (Ascii.eqb c "010") eqn:E; [|done].
      apply Ascii.eqb_eq in E as ->. exists [], ["010"%char], g.
      split_and!; auto.
Qed.

Lemma backtrack_none r : ∀ s g k,
  backtrack r s g k = None →
  ∀ w rest g', s = w ++ rest → matches r w rest g g' → k rest g' = None.
Proof.
  induction r as [|c|p|r1 IH1 r2 IH2|r1 IH1 r2 IH2|r1 IH1|p|n r1 IH1|];
    simpl; intros s g k H w rest g' Hs Hm.
  - destruct Hm as [-> ->]. by subst s.
  - destruct Hm as [-> ->]. subst s. simpl in H.
    by rewrite Ascii.eqb_refl in H.
  - destruct Hm as (c & Hc & -> & ->). subst s. simpl in H.
    by rewrite Hc in H.
  - destruct Hm as (w1 & w2 & g1 & -> & H1 & H2).
    rewrite <- app_assoc in Hs.
    pose proof (IH1 _ _ _ H _ _ _ Hs H1) as H'. simpl in H'.
    eapply IH2; eauto.
  - destruct (backtrack r1 s g k) eqn:E; [done|].
    destruct Hm; [eapply IH1|eapply IH2]; eauto.
  - destruct (backtrack r1 s g k) eqn:E; [done|].
    destruct Hm as [Hm|[-> ->]]; [eapply IH1; eauto|].
    by subst s.
  - destruct Hm as [Hw ->].
    eapply (star_loop_none _ _ _ H); eauto.
  - destruct Hm as (g0 & Hm & ->).
    pose proof (IH1 _ _ _ H _ _ _ Hs Hm) as H'. simpl in H'.
    subst s. by rewrite length_app, Nat.add_sub, take_app_length in H'.
  - destruct Hm as (-> & -> & Hr). simpl in Hs. subst s.
    destruct Hr as [->| ->]; [done|]. simpl in H. done.
Qed.
End BacktrackFacts.

Lemma match_at_sound r s pos m :
  match_at r s pos = Some m →
  ∃ w rest, s = w ++ rest ∧ matches r w rest ∅ (m_groups m)
    ∧ m_start m = pos ∧ m_end m = pos + length w.
Proof.
  unfold match_at. intros H.
  apply backtrack_sound in H as (w & rest & g' & -> & Hm & H).
  injection H as <-. simpl.
  exists w, rest. rewrite length_app, Nat.add_sub. auto.
Qed.

Lemma match_at_none r s pos :
  match_at r s pos = None →
  ∀ w rest g', s = w ++ rest → ¬ matches r w rest ∅ g'.
Proof.
  unfold match_at. intros H w rest g' Hs Hm.
  by pose proof (backtrack_none _ _ _ _ H _ _ _ Hs Hm).
Qed.

Lemma search_from_sound r s : ∀ pos m,
  search_from r s pos = Some m →
  ∃ pre, occurs_at r s pre (m_groups m)
    ∧ m_start m = pos + length pre
    ∧ ∀ pre' g', occurs_at r s pre' g' → length pre ≤ length pre'.
Proof.
  induction s as [|c s IH]; simpl; intros pos m H.
  - destruct (match_at r [] pos) as [m'|] eqn:E; [|done].
    injection H as ->. apply match_at_sound in E as (w & rest & Hs & Hm & Hp & _).
    exists []. split; [by exists w, rest|]. split; [simpl; lia|].
    intros; simpl; lia.
  - destruct (match_at r (c :: s) pos) as [m'|] eqn:E.
    + injection H as ->. apply match_at_sound in E as (w & rest & Hs & Hm & Hp & _).
      exists []. split; [by exists w, rest|]. split; [simpl; lia|].
      intros; simpl; lia.
    + apply IH in H as (pre & (w & rest & -> & Hm) & Hp & Hleft).
      exists (c :: pre). split; [by exists w, rest|]. split; [simpl; lia|].
      intros pre' g' (w' & rest' & Hs & Hm').
      destruct pre' as [|c' pre']; simpl in Hs.
      * exfalso. eapply match_at_none; eauto.
      * injection Hs as <- Hs. simpl.
        apply le_n_S, (Hleft pre' g'). by exists w', rest'.
Qed.

Lemma search_from_none r s : ∀ pos,
  search_from r s pos = None → ∀ pre g, ¬ occurs_at r s pre g.
Proof.
  induction s as [|c s IH]; simpl; intros pos H pre g (w & rest & Hs & Hm).
  - destruct (match_at r [] pos) eqn:E; [done|].
    symmetry in Hs. apply app_eq_nil in Hs as [-> Hs].
    eapply match_at_none; eauto.
  - destruct (match_at r (c :: s) pos) eqn:E; [done|].
    destruct pre as [|c' pre]; simpl in Hs.
    + eapply match_at_none; eauto.
    + injection Hs as <- Hs. eapply (IH _ H pre g). by exists w, rest.
Qed.

(** [re.search] finds the leftmost occurrence, and fails only when there
    is none. *)
Lemma re_search_sound r s m :
  re_search r s = Some m →
  ∃ pre, occurs_at r s pre (m_groups m)
    ∧ m_start m = length pre
    ∧ ∀ pre' g', occurs_at r s pre' g' → length pre ≤ length pre'.
Proof.
  intros H. apply search_from_sound in H as (pre & ? & ? & ?). eauto.
Qed.

Lemma re_search_none r s :
  re_search r s = None ↔ ∀ pre g, ¬ occurs_at r s pre g.
Proof.
  split; [apply search_from_none|].
  intros H. destruct (re_search r s) as [m|] eqn:E; [|done].
  apply re_search_sound in E as (pre & Ho & _). by apply H in Ho.
Qed.

(** *** The building blocks *)

Lemma matches_Rep n p w rest g g' :
  matches (Rep n p) w rest g g' ↔
  length w = n ∧ Forall (λ c, p c = true) w ∧ g' = g.
Proof.
  revert w g. induction n as [|n IH]; simpl; intros w g.
  - split.
    + intros [-> ->]. auto.
    + intros (Hl & _ & ->). by apply nil_length_inv in Hl as ->.
  - split.
    + intros (w1 & w2 & g1 & -> & (c & Hc & -> & ->) & H).
      apply IH in H as (<- & Hw & ->). simpl. split_and!; auto.
    + intros (Hl & Hw & ->). destruct w as [|c w]; [done|].
      apply Forall_cons in Hw as [Hc Hw].
      exists [c], w, g. split_and!; [done|eauto|].
      apply IH. auto.
Qed.

Lemma matches_Lit l w rest g g' :
  matches (Lit l) w rest g g' ↔ w = l ∧ g' = g.
Proof.
  revert w g. induction l as [|c l IH]; simpl; intros w g; [done|].
  split.
  - intros (w1 & w2 & g1 & -> & (-> & ->) & H).
    apply IH in H as (-> & ->). auto.
  - intros (-> & ->). exists [c], l, g. split_and!; auto. by apply IH.
Qed.

Lemma matches_sep w rest g g' :
  matches sep w rest g g' ↔
  g' = g ∧ ∃ ws1 dash ws2, w = ws1 ++ dash ++ ws2
    ∧ spaces ws1 ∧ (dash = [] ∨ dash = ["-"%char]) ∧ spaces ws2.
Proof.
  unfold sep, spaces. simpl. split.
  - intros (w12 & ws2 & g2 & -> & (ws1 & dash & g1 & -> & (H1 & ->) & Hd)
            & H2 & ->).
    destruct Hd as [(-> & ->)|(-> & ->)].
    + split; [done|]. exists ws1, ["-"%char], ws2.
      rewrite <- app_assoc. split_and!; auto.
    + split; [done|]. exists ws1, [], ws2.
      rewrite <- app_assoc. split_and!; auto.
  - intros (-> & ws1 & dash & ws2 & -> & H1 & Hd & H2).
    exists (ws1 ++ dash), ws2, g. rewrite <- app_assoc.
    split_and!; auto.
    exists ws1, dash, g. split_and!; auto.
    destruct Hd as [->| ->]; auto.
Qed.

Lemma matches_date_with c w rest g g' :
  matches (date_with c) w rest g g' ↔ has_date_form c w = true ∧ g' = g.
Proof.
  unfold date_with. cbn [matches]. split.
  - intros (w4 & y & g4 & -> & (w3 & c2 & g3 & -> & (w2 & m & g2 & ->
            & (d & c1 & g1 & -> & Hd & -> & ->) & Hm) & -> & ->) & Hy).
    apply matches_Rep in Hd as (Hd & Hd' & ->).
    apply matches_Rep in Hm as (Hm & Hm' & ->).
    apply matches_Rep in Hy as (Hy & Hy' & ->).
    explode d. explode m. explode y. split_Forall.
    split; [|done].
    repeat match goal with H : _ = true |- _ => rewrite H end.
    by rewrite Ascii.eqb_refl.
  - intros [H ->].
    do 12 (destruct w as [|? w]; try done). simpl in H.
    repeat match type of H with
           | (_ && _) = true => apply andb_true_iff in H as [H ?]
           end.
    repeat match goal with
           | H : Ascii.eqb _ _ = true |- _ => apply Ascii.eqb_eq in H; subst
           end.
    eexists [_; _; _; _; _; _; _], [_; _; _; _], g. split; [done|]. split.
    2: { apply matches_Rep. split_and!; auto; by repeat constructor. }
    eexists [_; _; _; _; _; _], [_], g. split; [done|]. split; [|done].
    eexists [_; _; _], [_; _; _], g. split; [done|]. split.
    2: { apply matches_Rep. split_and!; auto; by repeat constructor. }
    eexists [_; _], [_], g. split; [done|]. split; [|done].
    apply matches_Rep. split_and!; auto; by repeat constructor.
Qed.

(** *** The patterns of the extractor, read declaratively *)

Lemma occurs_title_date text pre g :
  occurs_at title_date_re text pre g ↔
  ∃ d, date_token_at "-" text pre d ∧ g = {[1 := d]}.
Proof.
  unfold occurs_at, title_date_re, dash_date, date_token_at.
  cbn [matches]. split.
  - intros (w & rest & -> & g0 & H & ->).
    apply matches_date_with in H as [H ->]. eauto.
  - intros (d & (post & -> & H) & ->).
    exists d, post. split; [done|]. exists ∅. split; [|done].
    by apply matches_date_with.
Qed.

Lemma occurs_xd text pre g :
  occurs_at xd_re text pre g ↔ ∃ d, xd_date_at text pre d ∧ g = {[1 := d]}.
Proof.
  unfold occurs_at, xd_re, dot_date, xd_date_at, labelled_at.
  cbn [matches]. split.
  - intros (w & rest & -> & w12 & d & g2 & -> & (l & s & g1 & -> & Hl & Hs)
            & g0 & Hd & ->).
    apply matches_Lit in Hl as [-> ->].
    apply matches_sep in Hs as (-> & ws1 & dash & ws2 & -> & ? & ? & ?).
    apply matches_date_with in Hd as [Hd ->].
    exists d. split; [|done]. split; [|done].
    exists ws1, dash, ws2, rest. by rewrite <- !app_assoc.
  - intros (d & ((ws1 & dash & ws2 & post & -> & ? & ? & ?) & Hd) & ->).
    exists ("XD:" ++ ws1 ++ dash ++ ws2 ++ d), post.
    split; [by rewrite <- !app_assoc|].
    exists ("XD:" ++ ws1 ++ dash ++ ws2), d, ∅.
    split; [by rewrite <- !app_assoc|]. split.
    + exists ("XD:" : str), (ws1 ++ dash ++ ws2), ∅. split; [done|]. split.
      * by apply matches_Lit.
      * apply matches_sep. split; [done|]. by exists ws1, dash, ws2.
    + exists ∅. split; [|done]. by apply matches_date_with.
Qed.

Lemma occurs_xd_tba text pre g :
  occurs_at xd_tba_re text pre g ↔ xd_tba_at text pre ∧ g = ∅.
Proof.
  unfold occurs_at, xd_tba_re, xd_tba_at, labelled_at.
  cbn [matches]. split.
  - intros (w & rest & -> & w12 & d & g2 & -> & (l & s & g1 & -> & Hl & Hs)
            & Hd).
    apply matches_Lit in Hl as [-> ->].
    apply matches_sep in Hs as (-> & ws1 & dash & ws2 & -> & ? & ? & ?).
    apply matches_Lit in Hd as [-> ->].
    split; [|done].
    exists ws1, dash, ws2, rest. by rewrite <- !app_assoc.
  - intros ((ws1 & dash & ws2 & post & -> & ? & ? & ?) & ->).
    exists ("XD:" ++ ws1 ++ dash ++ ws2 ++ "TBA"), post.
    split; [by rewrite <- !app_assoc|].
    exists ("XD:" ++ ws1 ++ dash ++ ws2), ("TBA" : str), ∅.
    split; [by rewrite <- !app_assoc|]. split.
    + exists ("XD:" : str), (ws1 ++ dash ++ ws2), ∅. split; [done|]. split.
      * by apply matches_Lit.
      * apply matches_sep. split; [done|]. by exists ws1, dash, ws2.
    + by apply matches_Lit.
Qed.

Lemma spaces_newline_end rest :
  rest = [] ∨ rest = ["010"%char] → spaces rest.
Proof. intros [->| ->]; repeat constructor. Qed.

Lemma occurs_code title pre g :
  occurs_at code_re title pre g →
  ∃ tok, ends_in_code title tok ∧ g = {[1 := tok]}.
Proof.
  unfold occurs_at, code_re, ends_in_code, Plus. cbn [matches].
  intros (w & rest & -> & w4 & e & g4 & -> & (w3 & ws' & g3 & ->
          & (w2 & tok & g2 & -> & (dash & ws & g1 & -> & (-> & ->)
          & (w0 & ws0 & g0' & -> & (c0 & Hc0 & -> & ->) & Hws0 & ->))
          & g0 & (t0 & ts & gt & -> & (c & Hc & -> & ->) & Hts & ->) & ->)
          & Hws' & ->) & -> & -> & Hrest).
  exists ([c] ++ ts). split; [|done].
  exists pre, ([c0] ++ ws0), (ws' ++ rest).
  split; [by rewrite <- !app_assoc|].
  split_and!; try done.
  - by constructor.
  - by constructor.
  - apply Forall_app. split; [done|]. by apply spaces_newline_end.
Qed.

Lemma ends_in_code_occurs title tok :
  ends_in_code title tok → ∃ pre, occurs_at code_re title pre {[1 := tok]}.
Proof.
  unfold occurs_at, code_re, ends_in_code, Plus. cbn [matches].
  intros (pre & ws & ws' & -> & Hne & Hws & Hne' & Htok & Hws').
  destruct ws as [|c0 ws0]; [done|]. destruct tok as [|c ts]; [done|].
  apply Forall_cons in Hws as [? ?]. apply Forall_cons in Htok as [? ?].
  exists pre, ("-" ++ (c0 :: ws0) ++ (c :: ts) ++ ws'), [].
  split; [by rewrite app_nil_r|].
  exists ("-" ++ (c0 :: ws0) ++ (c :: ts) ++ ws'), [], {[1 := c :: ts]}.
  split; [by rewrite app_nil_r|]. split; [|auto].
  exists ("-" ++ (c0 :: ws0) ++ (c :: ts)), ws', {[1 := c :: ts]}.
  split; [by rewrite <- !app_assoc|]. split; [|auto].
  exists ("-" ++ (c0 :: ws0)), (c :: ts), ∅.
  split; [by rewrite <- !app_assoc|]. split.
  - exists ["-"%char], (c0 :: ws0), ∅. split; [done|]. split; [done|].
    exists [c0], ws0, ∅. split; [done|]. split; [eauto|done].
  - exists ∅. split; [|done].
    exists [c], ts, ∅. split; [done|]. split; [eauto|done].
Qed.

(** *** One occurrence, one value *)

Lemma digit_not_space c : is_digit c = true → is_space c = false.
Proof. destruct c as [[] [] [] [] [] [] [] []]; by vm_compute. Qed.

Lemma digit_not_dash c : is_digit c = true → Ascii.eqb c "-" = false.
Proof. destruct c as [[] [] [] [] [] [] [] []]; by vm_compute. Qed.

Lemma upper_not_space c : is_upper c = true → is_space c = false.
Proof. destruct c as [[] [] [] [] [] [] [] []]; by vm_compute. Qed.

Lemma space_not_upper c : is_space c = true → is_upper c = false.
Proof. destruct c as [[] [] [] [] [] [] [] []]; by vm_compute. Qed.

Lemma lstrip_spaces ws t : spaces ws → lstrip (ws ++ t) = lstrip t.
Proof.
  induction 1 as [|c ws Hc _ IH]; simpl; [done|]. by rewrite Hc.
Qed.

Lemma lstrip_head c t : is_space c = false → lstrip (c :: t) = c :: t.
Proof. intros H. simpl. by rewrite H. Qed.

Lemma after_sep_value ws1 dash ws2 c v :
  spaces ws1 → dash = [] ∨ dash = ["-"%char] → spaces ws2 →
  is_space c = false → Ascii.eqb c "-" = false →
  after_sep (ws1 ++ dash ++ ws2 ++ c :: v) = c :: v.
Proof.
  intros H1 Hd H2 Hs Hc. unfold after_sep.
  rewrite lstrip_spaces by done. destruct Hd as [->| ->]; simpl.
  - rewrite lstrip_spaces, lstrip_head by done.
    rewrite Hc. by apply lstrip_head.
  - rewrite lstrip_spaces by done. by apply lstrip_head.
Qed.

Lemma date_form_head c d :
  has_date_form c d = true →
  ∃ c0 d', d = c0 :: d' ∧ is_digit c0 = true ∧ length d = 11.
Proof.
  intros H. do 12 (destruct d as [|? d]; try done). simpl in H.
  repeat match type of H with
         | (_ && _) = true => apply andb_true_iff in H as [H ?]
         end.
  eauto.
Qed.

Lemma same_prefix (pre pre' x x' : str) :
  pre ++ x = pre' ++ x' → length pre = length pre' → pre = pre' ∧ x = x'.
Proof. intros H Hl. by apply app_inj_1. Qed.

Lemma same_head (d d' x x' : str) :
  d ++ x = d' ++ x' → length d = length d' → d = d'.
Proof. intros H Hl. by apply app_inj_1 in H as [? ?]. Qed.

Lemma date_token_unique c text pre d d' :
  date_token_at c text pre d → date_token_at c text pre d' → d = d'.
Proof.
  intros (post & -> & H) (post' & E & H').
  apply app_inv_head in E.
  apply date_form_head in H as (_ & _ & _ & _ & Hl).
  apply date_form_head in H' as (_ & _ & _ & _ & Hl').
  symmetry. eapply same_head; eauto. congruence.
Qed.

Lemma xd_date_unique text pre d d' :
  xd_date_at text pre d → xd_date_at text pre d' → d = d'.
Proof.
  intros [(ws1 & dash & ws2 & post & -> & H1 & Hd & H2) H]
         [(ws1' & dash' & ws2' & post' & E & H1' & Hd' & H2') H'].
  do 2 apply app_inv_head in E.
  apply date_form_head in H as (c0 & v & -> & Hc0 & Hl).
  apply date_form_head in H' as (c0' & v' & -> & Hc0' & Hl').
  apply (f_equal after_sep) in E.
  rewrite <- !app_comm_cons in E.
  rewrite !after_sep_value in E
    by auto using digit_not_space, digit_not_dash.
  rewrite !app_comm_cons in E.
  eapply same_head; eauto. congruence.
Qed.

Lemma take_upper_token tok c t :
  Forall (λ c, is_upper c = true) tok → is_upper c = false →
  take_upper (tok ++ c :: t) = tok.
Proof.
  induction 1 as [|c' tok Hc' _ IH]; simpl; intros Hc.
  - by rewrite Hc.
  - by rewrite Hc', IH.
Qed.

Lemma ends_in_code_token title tok :
  ends_in_code title tok → trailing_token title = tok.
Proof.
  intros (pre & ws & ws' & -> & Hne & Hws & Hne' & Htok & Hws').
  unfold trailing_token. rewrite !rev_app_distr, <- !app_assoc.
  rewrite lstrip_spaces by by apply Forall_rev.
  destruct (rev tok) as [|c rt] eqn:Et.
  { apply (f_equal (λ l, rev l)) in Et. rewrite rev_involutive in Et. done. }
  assert (Forall (λ c, is_upper c = true) (c :: rt)) as Hrt.
  { rewrite <- Et. by apply Forall_rev. }
  destruct (rev ws) as [|c0 rw] eqn:Ew.
  { apply (f_equal (λ l, rev l)) in Ew. rewrite rev_involutive in Ew. done. }
  assert (is_space c0 = true) as Hc0.
  { assert (Forall (λ c, is_space c = true) (c0 :: rw)) as Hrw.
    { rewrite <- Ew. by apply Forall_rev. }
    by apply Forall_cons in Hrw as [? _]. }
  rewrite <- app_comm_cons, lstrip_head
    by (apply upper_not_space; by apply Forall_cons in Hrt as [? _]).
  change (c :: rt ++ (c0 :: rw) ++ rev "-" ++ rev pre)
    with ((c :: rt) ++ c0 :: rw ++ rev "-" ++ rev pre).
  rewrite take_upper_token by auto using space_not_upper.
  by rewrite <- Et, rev_involutive.
Qed.

Lemma ends_in_code_unique title tok tok' :
  ends_in_code title tok → ends_in_code title tok' → tok = tok'.
Proof.
  intros H H'. apply ends_in_code_token in H, H'. congruence.
Qed.

Lemma re_search_leftmost r s m pre g :
  re_search r s = Some m → occurs_at r s pre g → m_start m ≤ length pre.
Proof.
  intros H Ho. apply re_search_sound in H as (pre0 & _ & -> & Hl). eauto.
Qed.

(** *** What each search of the extractor returns *)

Lemma group_singleton m n d : m_groups m = {[n := d]} → group m n = d.
Proof. unfold group. intros ->. by rewrite lookup_singleton_eq. Qed.

Lemma search_title_date title m :
  re_search title_date_re title = Some m →
  ∃ pre, date_token_at "-" title pre (group m 1)
    ∧ ∀ pre' d', date_token_at "-" title pre' d' → length pre ≤ length pre'.
Proof.
  intros H. apply re_search_sound in H as (pre & Ho & _ & Hl).
  apply occurs_title_date in Ho as (d & Hd & Hg).
  exists pre. rewrite (group_singleton _ _ _ Hg). split; [done|].
  intros pre' d' H'. apply (Hl pre' {[1 := d']}).
  apply occurs_title_date. eauto.
Qed.

Lemma search_title_date_none title :
  re_search title_date_re title = None ↔
  ∀ pre d, ¬ date_token_at "-" title pre d.
Proof.
  rewrite re_search_none. split.
  - intros H pre d Hd. apply (H pre {[1 := d]}).
    apply occurs_title_date. eauto.
  - intros H pre g Ho. apply occurs_title_date in Ho as (d & Hd & _).
    by apply H in Hd.
Qed.

Lemma search_xd text m :
  re_search xd_re text = Some m →
  ∃ pre, xd_date_at text pre (group m 1)
    ∧ ∀ pre' d', xd_date_at text pre' d' → length pre ≤ length pre'.
Proof.
  intros H. apply re_search_sound in H as (pre & Ho & _ & Hl).
  apply occurs_xd in Ho as (d & Hd & Hg).
  exists pre. rewrite (group_singleton _ _ _ Hg). split; [done|].
  intros pre' d' H'. apply (Hl pre' {[1 := d']}).
  apply occurs_xd. eauto.
Qed.

Lemma search_xd_none text :
  re_search xd_re text = None ↔ ∀ pre d, ¬ xd_date_at text pre d.
Proof.
  rewrite re_search_none. split.
  - intros H pre d Hd. apply (H pre {[1 := d]}). apply occurs_xd. eauto.
  - intros H pre g Ho. apply occurs_xd in Ho as (d & Hd & _).
    by apply H in Hd.
Qed.

Lemma search_xd_tba_none text :
  re_search xd_tba_re text = None ↔ ∀ pre, ¬ xd_tba_at text pre.
Proof.
  rewrite re_search_none. split.
  - intros H pre Hd. apply (H pre ∅). by apply occurs_xd_tba.
  - intros H pre g Ho. apply occurs_xd_tba in Ho as (Hd & _).
    by apply H in Hd.
Qed.

Lemma search_code title m :
  re_search code_re title = Some m → ends_in_code title (group m 1).
Proof.
  intros H. apply re_search_sound in H as (pre & Ho & _).
  apply occurs_code in Ho as (tok & Ht & Hg).
  by rewrite (group_singleton _ _ _ Hg).
Qed.

Lemma search_code_none title :
  re_search code_re title = None ↔ ∀ tok, ¬ ends_in_code title tok.
Proof.
  rewrite re_search_none. split.
  - intros H tok Ht. apply ends_in_code_occurs in Ht as (pre & Ho).
    by apply H in Ho.
  - intros H pre g Ho. apply occurs_code in Ho as (tok & Ht & _).
    by apply H in Ht.
Qed.

(** The same place in the text holds the same date. *)
Lemma leftmost_date_token c text pre pre' d d' :
  date_token_at c text pre d → date_token_at c text pre' d' →
  length pre ≤ length pre' → length pre' ≤ length pre → d = d'.
Proof.
  intros H H' H1 H2.
  assert (pre = pre') as <-; [|by eapply date_token_unique].
  destruct H as (post & -> & _), H' as (post' & E & _).
  apply same_prefix in E as [? _]; [done|lia].
Qed.

Lemma leftmost_xd_date text pre pre' d d' :
  xd_date_at text pre d → xd_date_at text pre' d' →
  length pre ≤ length pre' → length pre' ≤ length pre → d = d'.
Proof.
  intros H H' H1 H2.
  assert (pre = pre') as <-; [|by eapply xd_date_unique].
  destruct H as [(? & ? & ? & ? & -> & _) _],
           H' as [(? & ? & ? & ? & E & _) _].
  apply same_prefix in E as [? _]; [done|lia].
Qed.

(** *** What [find] returns *)

Lemma head_filter_none {A} (p : A → bool) (l : list A) :
  head (List.filter p l) = None ↔ Forall (λ x, p x = false) l.
Proof.
  induction l as [|x l IH]; simpl.
  - split; [constructor|done].
  - destruct (p x) eqn:E; simpl.
    + split; [done|]. intros H. apply Forall_cons in H as [? _]. congruence.
    + rewrite IH. split; [by constructor|].
      intros H. by apply Forall_cons in H as [_ ?].
Qed.

Lemma head_filter_some {A} (p : A → bool) (l : list A) (y : A) :
  head (List.filter p l) = Some y ↔
  ∃ before after,
    l = before ++ y :: after
    ∧ Forall (λ x, p x = false) before ∧ p y = true.
Proof.
  induction l as [|x l IH]; simpl.
  - split; [done|]. intros (before & after & E & _).
    by destruct before.
  - destruct (p x) eqn:E; simpl.
    + split.
      * intros [= <-]. exists [], l. auto.
      * intros (before & after & El & Hb & Hy).
        destruct before as [|b before]; simpl in El.
        -- by injection El as ->.
        -- injection El as -> _. apply Forall_cons in Hb as [? _]. congruence.
    + rewrite IH. split.
      * intros (before & after & -> & Hb & Hy).
        exists (x :: before), after. split_and!; [done| |done].
        by constructor.
      * intros (before & after & El & Hb & Hy).
        destruct before as [|b before]; simpl in El.
        -- injection El as -> _. congruence.
        -- injection El as -> ->. apply Forall_cons in Hb as [_ Hb].
           by exists before, after.
Qed.

Lemma find_none names n :
  find names AnyClass n = None ↔ lacks_tag names n.
Proof. apply head_filter_none. Qed.

Lemma find_some names n t :
  find names AnyClass n = Some t ↔ first_tag names n t.
Proof. apply head_filter_some. Qed.

(** *** The fields of an extracted record *)

Lemma lookup_set_if_ne {M} (o : option M) (k k' : string) (f : M → str)
    (data : record) :
  k ≠ k' →
  match o with Some m => <[k := f m]> data | None => data end !! k'
  = data !! k'.
Proof. intros. destruct o; by rewrite ?lookup_insert_ne. Qed.

Lemma lookup_set_if_eq {M} (o : option M) (k : string) (f : M → str)
    (data : record) :
  match o with Some m => <[k := f m]> data | None => data end !! k
  = match o with Some m => Some (f m) | None => data !! k end.
Proof. destruct o; by rewrite ?lookup_insert_eq. Qed.

Lemma lookup_set_line_ne (lines : list str) (k k' : string) (data : record) :
  k ≠ k' →
  match lines with _ :: line1 :: _ => <[k := line1]> data | _ => data end !! k'
  = data !! k'.
Proof. intros. destruct lines as [|? [|? ?]]; by rewrite ?lookup_insert_ne. Qed.

Lemma lookup_set_xd_ne {M N} (o : option M) (o' : option N) (k k' : string)
    (f : M → str) (v : str) (data : record) :
  k ≠ k' →
  match o with
  | Some m => <[k := f m]> data
  | None => match o' with Some _ => <[k := v]> data | None => data end
  end !! k'
  = data !! k'.
Proof. intros. destruct o, o'; by rewrite ?lookup_insert_ne. Qed.

Lemma lookup_set_xd_eq {M N} (o : option M) (o' : option N) (k : string)
    (f : M → str) (v : str) (data : record) :
  match o with
  | Some m => <[k := f m]> data
  | None => match o' with Some _ => <[k := v]> data | None => data end
  end !! k
  = match o with
    | Some m => Some (f m)
    | None => match o' with Some _ => Some v | None => data !! k end
    end.
Proof. destruct o, o'; by rewrite ?lookup_insert_eq. Qed.

Ltac skip_other_fields :=
  repeat first
    [ rewrite lookup_set_if_ne by done
    | rewrite lookup_set_xd_ne by done
    | rewrite lookup_set_line_ne by done
    | rewrite lookup_insert_ne by done ].

Lemma extract_fields post data :
  extract_dividend_data post = Some data →
  ∃ title_elem title_link date_match,
    find [("h3" : str); ("h2" : str)] AnyClass post = Some title_elem
    ∧ find [("a" : str)] AnyClass title_elem = Some title_link
    ∧ re_search title_date_re (get_text title_link) = Some date_match
    ∧ data !! "Post_Date" = Some (group date_match 1)
    ∧ data !! "Company_Code"
      = (λ m, group m 1) <$> re_search code_re (get_text title_link)
    ∧ data !! "Date_of_Announcement"
      = (λ m, group m 1) <$> re_search ann_date_re (get_text post)
    ∧ data !! "XD_Date"
      = match re_search xd_re (get_text post) with
        | Some m => Some (replace_dots (group m 1))
        | None => (λ _, ("TBA" : str)) <$> re_search xd_tba_re (get_text post)
        end.
Proof.
  unfold extract_dividend_data. intros H.
  destruct (find _ AnyClass post) as [title_elem|] eqn:Ht; [|done].
  destruct (find _ AnyClass title_elem) as [title_link|] eqn:Hl; [|done].
  destruct (re_search title_date_re _) as [date_match|] eqn:Hd; [|done].
  exists title_elem, title_link, date_match.
  injection H as <-.
  do 3 (split; [done|]).
  split_and!; skip_other_fields.
  - by rewrite lookup_insert_eq.
  - rewrite lookup_set_if_eq. skip_other_fields.
    by rewrite lookup_empty.
  - rewrite lookup_set_if_eq. skip_other_fields.
    by rewrite lookup_empty.
  - rewrite lookup_set_xd_eq. skip_other_fields.
    by rewrite lookup_empty.
Qed.

(** ** The month filter *)

Lemma filter_step_announced month_number filtered div :
  (if has_key "Date_of_Announcement" div then
     match strptime (default [] (div !! "Date_of_Announcement")) with
     | Some ann_date =>
         if (month ann_date =? month_number)%Z then filtered ++ [div]
         else filtered
     | None => filtered
     end
   else filtered)
  = filtered ++ (if announced_in month_number div then [div] else []).
Proof.
  unfold announced_in, announcement_date, has_key.
  destruct (div !! "Date_of_Announcement") as [s|] eqn:E;
    case_bool_decide as Hd; simpl.
  - destruct (strptime s) as [dt|]; [|by rewrite app_nil_r].
    destruct (month dt =? month_number)%Z; [done|by rewrite app_nil_r].
  - destruct Hd; eauto.
  - by destruct Hd.
  - by rewrite app_nil_r.
Qed.

Lemma filter_by_month_from month_number dividends : ∀ filtered,
  fold_left
    (λ filtered div,
       if has_key "Date_of_Announcement" div then
         match strptime (default [] (div !! "Date_of_Announcement")) with
         | Some ann_date =>
             if (month ann_date =? month_number)%Z then filtered ++ [div]
             else filtered
         | None => filtered
         end
       else filtered)
    dividends filtered
  = filtered ++ List.filter (announced_in month_number) dividends.
Proof.
  induction dividends as [|div dividends IH]; intros filtered; simpl.
  - by rewrite app_nil_r.
  - rewrite IH, filter_step_announced.
    destruct (announced_in month_number div); simpl.
    + by rewrite <- app_assoc.
    + by rewrite app_nil_r.
Qed.

(** C1.  [filter_by_month] returns exactly the records whose
    [Date_of_Announcement] is parsed by [strptime] (format [%d-%b-%Y])
    to a date in the month asked for, in the order of the input: it is the
    filter of the input list by that test.  A record without the field,
    or with a date that does not parse, fails the test and is left out;
    the function returns a list in every case. *)
Theorem filter_by_month_selects (dividends : list record) (month_number : Z) :
  filter_by_month dividends month_number
  = List.filter (announced_in month_number) dividends
  ∧ ∀ div,
      (div !! "Date_of_Announcement" = None
       ∨ ∃ s, div !! "Date_of_Announcement" = Some s ∧ strptime s = None) →
      div ∉ filter_by_month dividends month_number.
Proof.
  assert (filter_by_month dividends month_number
          = List.filter (announced_in month_number) dividends) as E.
  { unfold filter_by_month. by rewrite filter_by_month_from. }
  split; [done|].
  intros div Hdiv Hin. rewrite E in Hin.
  apply list_elem_of_In, filter_In in Hin as [_ Hin].
  unfold announced_in, announcement_date in Hin.
  destruct Hdiv as [Ek|(s & Ek & Es)]; rewrite Ek in Hin; [done|].
  by rewrite Es in Hin.
Qed.

(** ** The extractor *)

(** C4.  [extract_dividend_data] returns [None] exactly when a gate
    fails: no tag below the post is an [h3] or [h2]; or the first such
    heading has no [a] below it; or the text of its first link holds no
    token of two digits, a dash, three letters, a dash and four digits.
    When none fails it returns a record, whose [Post_Date] is the leftmost
    such token of the link text. *)
Theorem extract_gates (post : node) :
  (extract_dividend_data post = None ↔
     lacks_tag [("h3" : str); ("h2" : str)] post
     ∨ (∃ title_elem,
          first_tag [("h3" : str); ("h2" : str)] post title_elem
          ∧ lacks_tag [("a" : str)] title_elem)
     ∨ (∃ title_elem title_link,
          first_tag [("h3" : str); ("h2" : str)] post title_elem
          ∧ first_tag [("a" : str)] title_elem title_link
          ∧ ∀ pre d, ¬ date_token_at "-" (get_text title_link) pre d))
  ∧ (∀ data, extract_dividend_data post = Some data →
     ∃ title_elem title_link pre d,
       first_tag [("h3" : str); ("h2" : str)] post title_elem
       ∧ first_tag [("a" : str)] title_elem title_link
       ∧ date_token_at "-" (get_text title_link) pre d
       ∧ (∀ pre' d', date_token_at "-" (get_text title_link) pre' d' →
                     length pre ≤ length pre')
       ∧ data !! "Post_Date" = Some d).
Proof.
  split.
  - setoid_rewrite <- find_none. setoid_rewrite <- find_some. split.
    + intros H. unfold extract_dividend_data in H.
      destruct (find _ AnyClass post) as [title_elem|] eqn:Ht; [|by left].
      destruct (find _ AnyClass title_elem) as [title_link|] eqn:Hl;
        [|right; left; eauto].
      destruct (re_search title_date_re _) eqn:E; [done|].
      right; right. exists title_elem, title_link.
      split_and!; try done. by apply search_title_date_none.
    + unfold extract_dividend_data.
      intros [->|[(title_elem & -> & ->)|(title_elem & title_link & -> & ->
                                           & H)]]; try done.
      by rewrite (proj2 (search_title_date_none _) H).
  - intros data H.
    apply extract_fields in H
      as (title_elem & title_link & m & Ht & Hl & Hm & Hp & _).
    apply search_title_date in Hm as (pre & Hd & Hleft).
    exists title_elem, title_link, pre, (group m 1).
    split_and!; try done; by apply find_some.
Qed.

(** The statement of C7 fails as it is written: a container whose text
    holds the XD line but which has no heading yields no record at all. *)
Lemma xd_line_without_heading :
  xd_date_at (get_text (bare_post "XD: - 05.Jun.2024")) [] "05.Jun.2024"
  ∧ extract_dividend_data (bare_post "XD: - 05.Jun.2024") = None.
Proof.
  split; [|apply none_by_eval; vm_compute; reflexivity].
  split; [|vm_compute; reflexivity].
  exists (" " : str), ["-"%char], (" " : str), [].
  split_and!; [vm_compute; reflexivity| |by right|]; by repeat constructor.
Qed.

(** C7, amended.  For a post that passes the gates, so that a record is
    returned: when the text of the post holds [XD:], optional white space,
    an optional dash, optional white space and a date [DD.Mon.YYYY], the
    record's [XD_Date] is the date of the leftmost such place with its
    dots replaced by dashes; when it holds no such place but holds [XD:]
    followed in the same way by [TBA], the [XD_Date] is ["TBA"]. *)
Theorem xd_date_of_record (post : node) (data : record) :
  extract_dividend_data post = Some data →
  (∀ pre d,
     xd_date_at (get_text post) pre d →
     (∀ pre' d', xd_date_at (get_text post) pre' d' →
                 length pre ≤ length pre') →
     data !! "XD_Date" = Some (replace_dots d))
  ∧ ((∀ pre d, ¬ xd_date_at (get_text post) pre d) →
     (∃ pre, xd_tba_at (get_text post) pre) →
     data !! "XD_Date" = Some ("TBA" : str)).
Proof.
  intros H.
  apply extract_fields in H as (_ & _ & _ & _ & _ & _ & _ & _ & _ & Hxd).
  rewrite Hxd. split.
  - intros pre d Hd Hleft.
    destruct (re_search xd_re (get_text post)) as [m|] eqn:E.
    + apply search_xd in E as (pre0 & Hd0 & Hleft0).
      do 2 f_equal. eapply leftmost_xd_date; eauto.
    + exfalso. by eapply (proj1 (search_xd_none _) E).
  - intros Hnone [pre Htba].
    rewrite (proj2 (search_xd_none _) Hnone).
    destruct (re_search xd_tba_re (get_text post)) eqn:E; [done|].
    exfalso. by eapply (proj1 (search_xd_tba_none _) E).
Qed.

(** The statement of C8 fails as it is written: a title that ends in
    [- ABC] but holds no date token yields no record at all. *)
Lemma code_without_title_date :
  ends_in_code "Interim Dividend - ABC" "ABC"
  ∧ (∃ title_elem title_link,
       first_tag [("h3" : str); ("h2" : str)] post_no_date_in_title title_elem
       ∧ first_tag [("a" : str)] title_elem title_link
       ∧ get_text title_link = "Interim Dividend - ABC")
  ∧ extract_dividend_data post_no_date_in_title = None.
Proof.
  split_and!.
  - exists ("Interim Dividend " : str), (" " : str), [].
    split_and!; try done; by repeat constructor.
  - exists (sample_heading "Interim Dividend - ABC"),
      (sample_link "Interim Dividend - ABC").
    split_and!; [by apply find_some..|done].
  - apply none_by_eval. vm_compute. reflexivity.
Qed.

(** C8, amended.  For a post that passes the gates, so that a record is
    returned: when the title text ends in a dash, one or more white-space
    characters, a token of capital letters A-Z and possibly white space
    after it, the record's [Company_Code] is that token; when the title
    has no such ending, the record has no [Company_Code]. *)
Theorem company_code_of_record (post title_elem title_link : node)
    (data : record) :
  first_tag [("h3" : str); ("h2" : str)] post title_elem →
  first_tag [("a" : str)] title_elem title_link →
  extract_dividend_data post = Some data →
  (∀ tok, ends_in_code (get_text title_link) tok →
          data !! "Company_Code" = Some tok)
  ∧ ((∀ tok, ¬ ends_in_code (get_text title_link) tok) →
     data !! "Company_Code" = None).
Proof.
  intros Ht%find_some Hl%find_some H.
  apply extract_fields in H
    as (title_elem' & title_link' & _ & Ht' & Hl' & _ & _ & Hc & _).
  assert (title_elem' = title_elem) as -> by congruence.
  assert (title_link' = title_link) as -> by congruence.
  rewrite Hc. split.
  - intros tok Htok.
    destruct (re_search code_re (get_text title_link)) as [m|] eqn:E; simpl.
    + f_equal. apply search_code in E. by eapply ends_in_code_unique.
    + exfalso. by eapply (proj1 (search_code_none _) E).
  - intros Hnone. by rewrite (proj2 (search_code_none _) Hnone).
Qed.

Lemma xd_leftmost_by_search text n :
  match re_search xd_re text with
  | Some m => n <=? m_start m
  | None => true
  end = true →
  ∀ pre d, xd_date_at text pre d → n ≤ length pre.
Proof.
  intros H pre d Hd.
  destruct (re_search xd_re text) as [m|] eqn:E.
  - apply Nat.leb_le in H. etrans; [exact H|].
    apply (re_search_leftmost _ _ _ _ {[1 := d]} E).
    apply occurs_xd. eauto.
  - exfalso. by eapply (proj1 (search_xd_none _) E).
Qed.

(** The two sample posts: one with a dated XD line, one with TBA. *)
Lemma xd_date_of_record_witness :
  (∃ data, extract_dividend_data post_2024 = Some data
     ∧ data !! "XD_Date" = Some ("05-Jun-2024" : str))
  ∧ (∃ data, extract_dividend_data post_tba = Some data
       ∧ data !! "XD_Date" = Some ("TBA" : str)).
Proof.
  split.
  - destruct (some_by_eval (extract_dividend_data post_2024)) as [data E];
      [vm_compute; reflexivity|].
    exists data. split; [exact E|].
    assert (replace_dots "05.Jun.2024" = "05-Jun-2024") as <-
      by (vm_compute; reflexivity).
    apply (proj1 (xd_date_of_record post_2024 data E)
             ("05-Jun-2024 Final Dividend - ABC" ++ nl ++ "ABC Holdings PLC"
              ++ nl ++ "Date of Announcement: - 03-Jun-2024" ++ nl)
             "05.Jun.2024").
    + split; [|vm_compute; reflexivity].
      exists (" " : str), ["-"%char], (" " : str),
        (nl ++ "Financial Year: 2023/2024" ++ nl
         ++ "Rate of Dividend: Rs. 2.50 per share" ++ nl).
      split_and!; [vm_compute; reflexivity| |by right|];
        by repeat constructor.
    + apply xd_leftmost_by_search. vm_compute; reflexivity.
  - destruct (some_by_eval (extract_dividend_data post_tba)) as [data E];
      [vm_compute; reflexivity|].
    exists data. split; [exact E|].
    apply (proj2 (xd_date_of_record post_tba data E)).
    + apply search_xd_none, none_by_eval. vm_compute; reflexivity.
    + exists ("11-Jul-2024 Interim Dividend - XYZ" ++ nl ++ "XYZ PLC" ++ nl
              ++ "Date of Initial Announcement: 10-Jul-2024" ++ nl).
      exists (" " : str), ["-"%char], (" " : str), nl.
      split_and!; [vm_compute; reflexivity| |by right|];
        by repeat constructor.
Defined.

(** The sample post whose title ends in [- ABC]. *)
Lemma company_code_of_record_witness :
  ∃ data, extract_dividend_data post_2024 = Some data
    ∧ data !! "Company_Code" = Some ("ABC" : str).
Proof.
  destruct (some_by_eval (extract_dividend_data post_2024)) as [data E];
    [vm_compute; reflexivity|].
  exists data. split; [exact E|].
  assert (first_tag [("h3" : str); ("h2" : str)] post_2024
            (sample_heading "05-Jun-2024 Final Dividend - ABC")) as Ht
    by (apply find_some; vm_compute; reflexivity).
  assert (first_tag [("a" : str)]
            (sample_heading "05-Jun-2024 Final Dividend - ABC")
            (sample_link "05-Jun-2024 Final Dividend - ABC")) as Hl
    by (apply find_some; vm_compute; reflexivity).
  apply (proj1 (company_code_of_record post_2024 _ _ data Ht Hl E)).
  exists ("05-Jun-2024 Final Dividend " : str), (" " : str), [].
  split_and!; [vm_compute; reflexivity|..]; try done;
    by repeat constructor.
Defined.

(** ** The loop over the posts of a page *)

Lemma truthy_with_key k (d : record) : has_key k d = true → truthy d = true.
Proof.
  unfold has_key, truthy. intros H%bool_decide_eq_true.
  apply negb_true_iff, bool_decide_eq_false. intros ->.
  rewrite lookup_empty in H. by destruct H.
Qed.

(** One post: stop at a record dated before the cutoff, keep a record
    dated in range, pass over anything else. *)
Lemma scan_posts_cons cutoff post posts queue acc :
  scan_posts cutoff (post :: posts) queue acc
  = if below_cutoff cutoff post then ([], acc)
    else scan_posts cutoff posts queue
           (acc ++ option_list (in_range cutoff post)).
Proof.
  simpl. unfold below_cutoff, in_range, announcement_date.
  destruct (extract_dividend_data post) as [d|]; simpl;
    [|by rewrite app_nil_r].
  destruct (has_key "Date_of_Announcement" d) eqn:Hk.
  - rewrite (truthy_with_key _ _ Hk). simpl.
    apply bool_decide_eq_true in Hk as [s Hs]. rewrite Hs. simpl.
    destruct (strptime s) as [dt|]; simpl; [|by rewrite app_nil_r].
    destruct (Z.leb_spec cutoff (year dt)), (Z.ltb_spec (year dt) cutoff);
      try lia; simpl; by rewrite ?app_nil_r.
  - rewrite andb_false_r.
    apply bool_decide_eq_false in Hk.
    destruct (d !! "Date_of_Announcement") as [s|] eqn:Hs;
      [destruct Hk; eauto|].
    simpl. by rewrite app_nil_r.
Qed.

Lemma scan_posts_in_range cutoff posts queue acc :
  Forall (λ p, below_cutoff cutoff p = false) posts →
  scan_posts cutoff posts queue acc
  = (queue, acc ++ omap (in_range cutoff) posts).
Proof.
  intros H. revert acc.
  induction H as [|post posts Hp _ IH]; intros acc.
  - simpl. by rewrite app_nil_r.
  - rewrite scan_posts_cons, Hp, IH. simpl.
    destruct (in_range cutoff post); simpl; by rewrite <- ?app_assoc, ?app_nil_r.
Qed.

Lemma scan_posts_break cutoff before post after queue acc :
  Forall (λ p, below_cutoff cutoff p = false) before →
  below_cutoff cutoff post = true →
  scan_posts cutoff (before ++ post :: after) queue acc
  = ([], acc ++ omap (in_range cutoff) before).
Proof.
  intros H Hp. revert acc.
  induction H as [|p before Hb _ IH]; intros acc; simpl app.
  - rewrite scan_posts_cons, Hp. simpl. by rewrite app_nil_r.
  - rewrite scan_posts_cons, Hb, IH. simpl.
    destruct (in_range cutoff p); simpl; by rewrite <- ?app_assoc, ?app_nil_r.
Qed.

(** The first post dated before the cutoff, when there is one. *)
Lemma first_below_cutoff cutoff posts :
  Exists (λ p, below_cutoff cutoff p = true) posts →
  ∃ before post after,
    posts = before ++ post :: after
    ∧ Forall (λ p, below_cutoff cutoff p = false) before
    ∧ below_cutoff cutoff post = true.
Proof.
  induction posts as [|p posts IH]; intros H; [by apply Exists_nil in H|].
  destruct (below_cutoff cutoff p) eqn:Hp.
  - exists [], p, posts. auto.
  - apply Exists_cons in H as [H|H]; [congruence|].
    destruct (IH H) as (before & post & after & -> & Hb & Hpost).
    exists (p :: before), post, after. auto.
Qed.

Lemma scan_posts_queue cutoff posts queue acc :
  (scan_posts cutoff posts queue acc).1 = queue
  ∨ (scan_posts cutoff posts queue acc).1 = [].
Proof.
  revert acc. induction posts as [|post posts IH]; intros acc; [by left|].
  rewrite scan_posts_cons. destruct (below_cutoff cutoff post); auto.
Qed.

Lemma in_range_dated cutoff post d :
  in_range cutoff post = Some d →
  extract_dividend_data post = Some d
  ∧ ∃ ann_date, announcement_date d = Some ann_date
      ∧ (cutoff ≤ year ann_date)%Z.
Proof.
  unfold in_range. destruct (extract_dividend_data post) as [d'|]; [|done].
  destruct (announcement_date d') as [dt|] eqn:E; [|done].
  destruct (Z.leb_spec cutoff (year dt)); [|done].
  intros [= <-]. eauto.
Qed.

Lemma scan_posts_found cutoff posts queue acc (P : record → Prop) :
  (∀ post d, in_range cutoff post = Some d → P d) →
  Forall P acc → Forall P (scan_posts cutoff posts queue acc).2.
Proof.
  intros HP. revert acc.
  induction posts as [|post posts IH]; intros acc Hacc; [done|].
  rewrite scan_posts_cons. destruct (below_cutoff cutoff post); [done|].
  apply IH, Forall_app. split; [done|].
  destruct (in_range cutoff post) eqn:E; simpl; eauto.
Qed.

Lemma follow_older_link_length soup seen queue :
  length (follow_older_link soup seen queue) ≤ S (length queue).
Proof.
  unfold follow_older_link.
  repeat case_match; rewrite ?length_app; simpl; lia.
Qed.

Lemma follow_older_link_fresh soup seen queue u :
  u ∈ follow_older_link soup seen queue → u ∈ queue ∨ u ∉ seen.
Proof.
  unfold follow_older_link.
  repeat case_match; auto.
  rewrite elem_of_app, list_elem_of_singleton. intros [?| ->]; auto.
Qed.

(** ** The crawl loop *)

Section CrawlFacts.
Variable fetch : str → response.
Variable current_year num_years : Z.

Local Abbreviation pass := (iteration fetch current_year num_years).
Local Abbreviation advance := (step fetch current_year num_years).
Local Abbreviation reached := (reachable fetch current_year num_years).
Local Abbreviation run := (steps fetch current_year num_years).
Local Abbreviation ceiling := (max_pages num_years).
Local Abbreviation cutoff := (cutoff_year current_year num_years).
Local Abbreviation left_over := (budget num_years).

Lemma step_inv st st' :
  advance st = Some st' →
  ∃ url rest, page_urls st = url :: rest
    ∧ (page_count st < ceiling)%Z ∧ st' = pass url rest st.
Proof.
  unfold step. destruct (page_urls st) as [|url rest]; [done|].
  destruct (Z.ltb_spec (page_count st) ceiling); [|done].
  intros [= <-]. eauto.
Qed.

Lemma step_none st :
  advance st = None → page_urls st = [] ∨ (ceiling ≤ page_count st)%Z.
Proof.
  unfold step. destruct (page_urls st) as [|url rest]; [auto|].
  destruct (Z.ltb_spec (page_count st) ceiling); [done|auto].
Qed.

(** The three ways through the body of the loop. *)
Lemma iteration_visited url rest st :
  url ∈ visited st →
  pass url rest st
  = Crawl rest (visited st) (page_count st) (all_dividends st)
      (requests st) (printed st).
Proof. intros H. unfold iteration. by rewrite decide_True. Qed.

Lemma iteration_raises url rest st e :
  url ∉ visited st → fetch url = Raises e →
  pass url rest st
  = Crawl rest ({[url]} ∪ visited st) (page_count st + 1)
      (all_dividends st) (requests st ++ [url])
      (printed st ++ [MsgError url e]).
Proof.
  intros H E. unfold iteration. by rewrite decide_False, E.
Qed.

Lemma iteration_returns url rest st soup :
  url ∉ visited st → fetch url = Returns soup →
  let scanned :=
    scan_posts cutoff (find_posts soup) rest (all_dividends st) in
  page_urls (pass url rest st)
    = follow_older_link soup ({[url]} ∪ visited st) scanned.1
  ∧ visited (pass url rest st) = {[url]} ∪ visited st
  ∧ page_count (pass url rest st) = (page_count st + 1)%Z
  ∧ all_dividends (pass url rest st) = scanned.2
  ∧ requests (pass url rest st) = requests st ++ [url].
Proof.
  intros H E. unfold iteration. rewrite decide_False, E by done.
  simpl. by destruct (scan_posts _ _ _ _).
Qed.

(** What every pass through the body preserves or bounds. *)
Lemma iteration_queue url rest st :
  length (page_urls (pass url rest st)) ≤ length rest
  ∨ ((url ∉ visited st)
     ∧ length (page_urls (pass url rest st)) ≤ S (length rest)).
Proof.
  destruct (decide (url ∈ visited st)) as [Hv|Hv].
  - left. by rewrite iteration_visited.
  - right. split; [done|]. destruct (fetch url) as [e|soup] eqn:E.
    + rewrite (iteration_raises _ _ _ e) by done. simpl. lia.
    + destruct (iteration_returns url rest st soup Hv E) as (-> & _).
      etrans; [apply follow_older_link_length|].
      apply le_n_S.
      destruct (scan_posts_queue cutoff (find_posts soup) rest
                  (all_dividends st)) as [-> | ->]; simpl; lia.
Qed.

Lemma iteration_count url rest st :
  (url ∈ visited st
   ∧ page_count (pass url rest st) = page_count st
   ∧ requests (pass url rest st) = requests st
   ∧ visited (pass url rest st) = visited st)
  ∨ ((url ∉ visited st)
     ∧ page_count (pass url rest st) = (page_count st + 1)%Z
     ∧ requests (pass url rest st) = requests st ++ [url]
     ∧ visited (pass url rest st) = {[url]} ∪ visited st).
Proof.
  destruct (decide (url ∈ visited st)) as [Hv|Hv].
  - left. by rewrite iteration_visited.
  - right. split; [done|]. destruct (fetch url) as [e|soup] eqn:E.
    + by rewrite (iteration_raises _ _ _ e).
    + destruct (iteration_returns url rest st soup Hv E)
        as (_ & -> & -> & _ & ->). done.
Qed.

Lemma iteration_found url rest st (P : record → Prop) :
  (∀ post d, in_range cutoff post = Some d → P d) →
  Forall P (all_dividends st) →
  Forall P (all_dividends (pass url rest st)).
Proof.
  intros HP Hacc. destruct (decide (url ∈ visited st)) as [Hv|Hv].
  - by rewrite iteration_visited.
  - destruct (fetch url) as [e|soup] eqn:E.
    + by rewrite (iteration_raises _ _ _ e).
    + destruct (iteration_returns url rest st soup Hv E)
        as (_ & _ & _ & -> & _).
      by apply scan_posts_found.
Qed.

Lemma consistent_initial : consistent (initial num_years).
Proof.
  split_and!; simpl; [constructor| |done].
  intros u. by rewrite elem_of_nil, elem_of_empty.
Qed.

Lemma consistent_step st st' :
  consistent st → advance st = Some st' → consistent st'.
Proof.
  intros (Hnd & Hv & Hc) (url & rest & Hq & Hlt & ->)%step_inv.
  destruct (iteration_count url rest st)
    as [(Hin & Ec & Er & Ev)|(Hin & Ec & Er & Ev)];
    unfold consistent; rewrite Ec, Er, Ev.
  - done.
  - split_and!.
    + apply NoDup_app. split_and!; [done| |apply NoDup_singleton].
      intros u Hu ->%list_elem_of_singleton. by apply Hin, Hv.
    + intros u. rewrite elem_of_app, list_elem_of_singleton, elem_of_union,
        elem_of_singleton, Hv. tauto.
    + rewrite length_app. simpl. lia.
Qed.

Lemma reachable_consistent st : reached st → consistent st.
Proof.
  induction 1; eauto using consistent_initial, consistent_step.
Qed.

Lemma reachable_count st :
  (0 ≤ num_years)%Z → reached st → (page_count st ≤ ceiling)%Z.
Proof.
  intros Hy. induction 1 as [|st st' _ IH Hs].
  - simpl. unfold max_pages. lia.
  - apply step_inv in Hs as (url & rest & _ & Hlt & ->).
    destruct (iteration_count url rest st)
      as [(_ & -> & _)|(_ & -> & _)]; lia.
Qed.

Lemma reachable_found st (P : record → Prop) :
  (∀ post d, in_range cutoff post = Some d → P d) →
  reached st → Forall P (all_dividends st).
Proof.
  intros HP. induction 1 as [|st st' _ IH Hs]; [constructor|].
  apply step_inv in Hs as (url & rest & _ & _ & ->).
  by apply iteration_found.
Qed.

Lemma reachable_steps st st' : reached st → run st st' → reached st'.
Proof.
  intros H. induction 1 as [|st st1 st2 Hs _ IH]; [done|].
  apply IH. by eapply reachable_step.
Qed.

(** Termination: every advance lowers the left_over. *)

Lemma step_budget st st' :
  advance st = Some st' → left_over st' < left_over st.
Proof.
  intros (url & rest & Hq & Hlt & ->)%step_inv. unfold budget.
  rewrite Hq. simpl.
  destruct (iteration_queue url rest st) as [Hl|[Hv Hl]].
  - destruct (iteration_count url rest st)
      as [(_ & -> & _)|(_ & -> & _)]; lia.
  - destruct (iteration_count url rest st)
      as [(? & _)|(_ & -> & _)]; [done|lia].
Qed.

Lemma crawl_loop_ends fuel : ∀ st,
  left_over st ≤ fuel →
  ∃ st', crawl_loop fetch current_year num_years fuel st = Some st'
    ∧ run st st' ∧ advance st' = None.
Proof.
  induction fuel as [|fuel IH]; intros st Hb; simpl.
  - destruct (advance st) as [st'|] eqn:E.
    + apply step_budget in E. lia.
    + exists st. split_and!; [done|apply rtc_refl|done].
  - destruct (advance st) as [st'|] eqn:E.
    + destruct (IH st') as (st'' & ? & ? & ?).
      { apply step_budget in E. lia. }
      exists st''. split_and!; [done| |done]. by eapply rtc_l.
    + exists st. split_and!; [done|apply rtc_refl|done].
Qed.

Lemma crawl_ends :
  ∃ st, crawl fetch current_year num_years = Some st
    ∧ reached st ∧ advance st = None.
Proof.
  destruct (crawl_loop_ends (1 + Z.to_nat ceiling) (initial num_years))
    as (st & E & Hs & Hn).
  { unfold budget. simpl. lia. }
  exists st. split_and!; [done| |done].
  eapply reachable_steps; [apply reachable_initial|done].
Qed.

(** A URL once visited is not requested again. *)
Lemma visited_not_requested st st' u :
  run st st' → u ∈ visited st →
  ∃ later, requests st' = requests st ++ later ∧ u ∉ later.
Proof.
  induction 1 as [st|st st1 st2 Hs _ IH]; intros Hu.
  - exists []. rewrite app_nil_r. split; [done|apply not_elem_of_nil].
  - apply step_inv in Hs as (url & rest & _ & _ & ->).
    destruct (iteration_count url rest st)
      as [(_ & _ & Er & Ev)|(Hin & _ & Er & Ev)].
    + rewrite Ev, Er in IH. by apply IH.
    + destruct IH as (later & -> & Hl);
        [rewrite Ev; apply elem_of_union; by right|].
      exists (url :: later). rewrite Er, <- app_assoc. split; [done|].
      rewrite not_elem_of_cons. split; [|done]. by intros ->.
Qed.
End CrawlFacts.

(** The states of the sample crawl. *)
Lemma after_page1_reachable : reachable sample_blog 2026 5 after_page1.
Proof.
  eapply reachable_step; [apply reachable_initial|reflexivity].
Qed.

Lemma after_page2_reachable : reachable sample_blog 2026 5 after_page2.
Proof.
  eapply reachable_step; [apply after_page1_reachable|].
  unfold step.
  assert (page_urls after_page1 = [page2_url]) as ->
    by (vm_compute; reflexivity).
  assert ((page_count after_page1 <? max_pages 5)%Z = true) as ->
    by (vm_compute; reflexivity).
  reflexivity.
Qed.

(** ** The crawl *)

(** C2.  In every state the crawl loop passes through, each record of the
    accumulator has a [Date_of_Announcement] field.  The loop over the
    posts appends a record only behind the test for the field: a post
    whose record lacks it leaves the queue and the accumulator as they
    were. *)
Theorem accumulator_has_announcement_dates
    (fetch : str → response) (current_year num_years : Z)
    (st : crawl_state) :
  reachable fetch current_year num_years st →
  Forall (λ d : record, is_Some (d !! "Date_of_Announcement"))
    (all_dividends st)
  ∧ ∀ cutoff post posts queue acc (d : record),
      extract_dividend_data post = Some d →
      d !! "Date_of_Announcement" = None →
      scan_posts cutoff (post :: posts) queue acc
      = scan_posts cutoff posts queue acc.
Proof.
  intros Hr. split.
  - apply (reachable_found fetch current_year num_years); [|done].
    intros post d (_ & dt & H & _)%in_range_dated.
    unfold announcement_date in H.
    destruct (d !! "Date_of_Announcement"); [eauto|done].
  - intros cutoff post posts queue acc d E Hd.
    rewrite scan_posts_cons. unfold below_cutoff, in_range, announcement_date.
    rewrite E, Hd. simpl. by rewrite app_nil_r.
Qed.

(** After two pages of the sample blog the accumulator holds three
    records. *)
Lemma accumulator_has_announcement_dates_witness :
  length (all_dividends after_page2) = 3
  ∧ Forall (λ d : record, is_Some (d !! "Date_of_Announcement"))
      (all_dividends after_page2).
Proof.
  split; [vm_compute; reflexivity|].
  apply (accumulator_has_announcement_dates sample_blog 2026 5 after_page2).
  apply after_page2_reachable.
Defined.

(** C3.  For a positive number of years the crawl loop ends, whatever
    the pages hold: [crawl] returns the state in which the loop condition
    is false, so that the queue is empty or the page counter is at
    [num_years * 20], and [scrape_dividend_announcements] returns its
    accumulator.  In every state the loop passes through the page counter
    is at most [num_years * 20], and it is the number of pages
    requested. *)
Theorem crawl_ends_within_ceiling
    (fetch : str → response) (current_year num_years : Z) :
  (0 < num_years)%Z →
  (∃ st, crawl fetch current_year num_years = Some st
     ∧ reachable fetch current_year num_years st
     ∧ (page_urls st = [] ∨ page_count st = (num_years * 20)%Z)
     ∧ fst <$> scrape_dividend_announcements fetch current_year num_years
       = Some (all_dividends st))
  ∧ (∀ st, reachable fetch current_year num_years st →
       (page_count st ≤ num_years * 20)%Z
       ∧ Z.of_nat (length (requests st)) = page_count st).
Proof.
  intros Hy.
  assert (∀ st, reachable fetch current_year num_years st →
            (page_count st ≤ num_years * 20)%Z
            ∧ Z.of_nat (length (requests st)) = page_count st) as Hinv.
  { intros st Hr. split.
    - apply (reachable_count fetch current_year num_years); [lia|done].
    - by destruct (reachable_consistent _ _ _ _ Hr) as (_ & _ & ->). }
  split; [|done].
  destruct (crawl_ends fetch current_year num_years) as (st & E & Hr & Hn).
  exists st. split_and!; [done..| |].
  - apply step_none in Hn as [?|Hn]; [by left|right].
    destruct (Hinv st Hr) as [Hle _]. unfold max_pages in Hn. lia.
  - unfold scrape_dividend_announcements. by rewrite E.
Qed.

(** The crawl of the sample blog with five years asked for. *)
Lemma crawl_ends_within_ceiling_witness :
  ∃ st, crawl sample_blog 2026 5 = Some st
    ∧ reachable sample_blog 2026 5 st
    ∧ (page_urls st = [] ∨ page_count st = (5 * 20)%Z)
    ∧ fst <$> scrape_dividend_announcements sample_blog 2026 5
      = Some (all_dividends st).
Proof.
  apply (crawl_ends_within_ceiling sample_blog 2026 5). lia.
Defined.

(** C5.  Take a pass through the loop body in which the page is fetched
    and one of its posts yields a record dated before the cutoff year.
    Up to the first such post the records dated in range are appended and
    nothing after it is looked at; the queue is emptied; and the
    pagination step then runs on the empty queue, so that an older-posts
    link with a non-empty target that has not been visited leaves the
    queue holding that one URL. *)
Theorem cutoff_clears_queue
    (fetch : str → response) (current_year num_years : Z)
    (st : crawl_state) (url : str) (rest : list str) (soup : node) :
  url ∉ visited st →
  fetch url = Returns soup →
  Exists (λ p, below_cutoff (cutoff_year current_year num_years) p = true)
    (find_posts soup) →
  let st' := iteration fetch current_year num_years url rest st in
  (∃ before post after,
     find_posts soup = before ++ post :: after
     ∧ Forall (λ p, below_cutoff (cutoff_year current_year num_years) p
                    = false) before
     ∧ below_cutoff (cutoff_year current_year num_years) post = true
     ∧ all_dividends st'
       = all_dividends st
         ++ omap (in_range (cutoff_year current_year num_years)) before)
  ∧ page_urls st' = follow_older_link soup ({[url]} ∪ visited st) []
  ∧ (∀ name a contents next_url,
       find [("a" : str)] (ClassIs "blog-pager-older-link") soup
         = Some (Tag name a contents) →
       attr_href a = Some next_url → next_url ≠ [] →
       next_url ∉ {[url]} ∪ visited st →
       page_urls st' = [next_url]).
Proof.
  intros Hv E Hex st'.
  destruct (first_below_cutoff _ _ Hex)
    as (before & post & after & Hposts & Hb & Hp).
  destruct (iteration_returns fetch current_year num_years url rest st soup
              Hv E) as (Hq & _ & _ & Hacc & _).
  rewrite Hposts, (scan_posts_break _ _ _ _ _ _ Hb Hp) in Hq, Hacc.
  simpl in Hq, Hacc.
  split_and!.
  - exists before, post, after. auto.
  - done.
  - intros name a contents next_url Hf Hh Hne Hfresh.
    subst st'. rewrite Hq. unfold follow_older_link. rewrite Hf, Hh.
    destruct next_url; [done|]. simpl. by rewrite decide_False.
Qed.

(** The second page of the sample blog: its post of 2010 stops the scan
    and empties the queue, and its older-posts link puts the third page
    on the queue all the same. *)
Lemma cutoff_clears_queue_witness :
  (∃ before post after,
     find_posts (sample_page [post_2024; post_2010; post_tba]
                   [older_link page3_url])
     = before ++ post :: after
     ∧ Forall (λ p, below_cutoff (cutoff_year 2026 5) p = false) before
     ∧ below_cutoff (cutoff_year 2026 5) post = true
     ∧ all_dividends after_page2
       = all_dividends after_page1
         ++ omap (in_range (cutoff_year 2026 5)) before)
  ∧ page_urls after_page2 = [page3_url].
Proof.
  destruct (cutoff_clears_queue sample_blog 2026 5 after_page1 page2_url []
              (sample_page [post_2024; post_2010; post_tba]
                 [older_link page3_url]))
    as (Hacc & _ & Hq).
  - by_eval.
  - vm_compute. reflexivity.
  - by_eval.
  - split; [exact Hacc|].
    eapply Hq; [vm_compute; reflexivity|reflexivity|done|by_eval].
Defined.

Lemma occurs_ann_date text pre g :
  occurs_at ann_date_re text pre g →
  ∃ d, has_date_form "-" d = true ∧ g = {[1 := d]}.
Proof.
  unfold occurs_at, ann_date_re, dash_date. cbn [matches].
  intros (w & rest & -> & w4 & d & g4 & -> & (w3 & s & g3 & ->
          & (w2 & l2 & g2 & -> & (l1 & o & g1 & -> & Hl1 & Ho) & Hl2) & Hs)
          & g0 & Hd & ->).
  apply matches_Lit in Hl1 as [_ ->].
  assert (g2 = ∅) as ->.
  { destruct Ho as [Ho|[_ ->]]; [|done]. by apply matches_Lit in Ho as [_ ->]. }
  apply matches_Lit in Hl2 as [_ ->].
  apply matches_sep in Hs as (-> & _).
  apply matches_date_with in Hd as [Hd ->]. eauto.
Qed.

Lemma search_ann_date text m :
  re_search ann_date_re text = Some m → has_date_form "-" (group m 1) = true.
Proof.
  intros H. apply re_search_sound in H as (pre & Ho & _).
  apply occurs_ann_date in Ho as (d & Hd & Hg).
  by rewrite (group_singleton _ _ _ Hg).
Qed.

(** C6.  In every state the crawl loop passes through no URL has been
    requested twice: the requests made are the visited URLs, each of them
    once, and the page counter is their number.  This rests on three
    things: a URL popped when already visited is dropped with no request
    and no page counted; a URL is put in the visited set in the pass that
    requests it; and the pagination step adds to the queue only a URL
    that is not in the visited set. *)
Theorem no_url_requested_twice
    (fetch : str → response) (current_year num_years : Z)
    (st : crawl_state) :
  reachable fetch current_year num_years st →
  (NoDup (requests st)
   ∧ (∀ u, u ∈ requests st ↔ u ∈ visited st)
   ∧ page_count st = Z.of_nat (length (requests st)))
  ∧ (∀ url rest,
       url ∈ visited st →
       iteration fetch current_year num_years url rest st
       = Crawl rest (visited st) (page_count st) (all_dividends st)
           (requests st) (printed st))
  ∧ (∀ url rest,
       url ∉ visited st →
       let st' := iteration fetch current_year num_years url rest st in
       requests st' = requests st ++ [url]
       ∧ visited st' = {[url]} ∪ visited st)
  ∧ (∀ soup seen queue u,
       u ∈ follow_older_link soup seen queue → u ∈ queue ∨ u ∉ seen).
Proof.
  intros Hr. split_and!.
  - by apply reachable_consistent in Hr as (? & _).
  - by apply reachable_consistent in Hr as (_ & ? & _).
  - by apply reachable_consistent in Hr as (_ & _ & ?).
  - intros url rest Hv. by apply iteration_visited.
  - intros url rest Hv st'.
    destruct (iteration_count fetch current_year num_years url rest st)
      as [(? & _)|(_ & _ & ? & ?)]; done.
  - apply follow_older_link_fresh.
Qed.

(** The sample crawl after two pages. *)
Lemma no_url_requested_twice_witness :
  requests after_page2 = [base_url; page2_url]
  ∧ NoDup (requests after_page2)
  ∧ (∀ u, u ∈ requests after_page2 ↔ u ∈ visited after_page2)
  ∧ page_count after_page2 = Z.of_nat (length (requests after_page2)).
Proof.
  split; [vm_compute; reflexivity|].
  apply (proj1 (no_url_requested_twice sample_blog 2026 5 after_page2
                  after_page2_reachable)).
Defined.

(** C9.  When the fetch of a queued URL that has not been visited raises
    an error, the pass through the loop body prints the error and leaves
    the loop in the state where the URL is off the queue and in the
    visited set, the page counter is one higher, and the rest of the queue
    and the accumulator are as they were; the loop goes on from that state,
    and whatever it does afterwards, it never requests that URL again. *)
Theorem fetch_failure_recovered
    (fetch : str → response) (current_year num_years : Z)
    (st : crawl_state) (url : str) (rest : list str) (e : str) :
  page_urls st = url :: rest →
  (page_count st < max_pages num_years)%Z →
  url ∉ visited st →
  fetch url = Raises e →
  let st' :=
    Crawl rest ({[url]} ∪ visited st) (page_count st + 1)
      (all_dividends st) (requests st ++ [url])
      (printed st ++ [MsgError url e]) in
  step fetch current_year num_years st = Some st'
  ∧ ∀ st'', steps fetch current_year num_years st' st'' →
      ∃ later, requests st'' = requests st ++ [url] ++ later ∧ url ∉ later.
Proof.
  intros Hq Hlt Hv E st'. split.
  - unfold step. rewrite Hq.
    destruct (Z.ltb_spec (page_count st) (max_pages num_years)); [|lia].
    by rewrite (iteration_raises _ _ _ _ _ _ e).
  - intros st'' Hs.
    destruct (visited_not_requested _ _ _ _ _ url Hs) as (later & -> & Hl).
    + simpl. apply elem_of_union. left. by apply elem_of_singleton.
    + exists later. simpl. by rewrite <- app_assoc.
Qed.

(** The third page of the sample blog cannot be loaded. *)
Lemma fetch_failure_recovered_witness :
  step sample_blog 2026 5 after_page2
  = Some (Crawl [] ({[page3_url]} ∪ visited after_page2)
            (page_count after_page2 + 1) (all_dividends after_page2)
            (requests after_page2 ++ [page3_url])
            (printed after_page2
             ++ [MsgError page3_url
                   "HTTPSConnectionPool: Max retries exceeded"])).
Proof.
  apply (fetch_failure_recovered sample_blog 2026 5 after_page2 page3_url []
           "HTTPSConnectionPool: Max retries exceeded").
  - vm_compute. reflexivity.
  - vm_compute. reflexivity.
  - by_eval.
  - vm_compute. reflexivity.
Defined.

(** C10.  A post whose record has a [Date_of_Announcement] that
    [strptime] rejects is passed over by the loop over the posts: the
    scan of the page goes on with the next post, with the queue and the
    accumulator as they were, so the record is neither appended nor taken
    as the signal to stop.  Such a string always has the form of a date,
    two digits, three letters and four digits between dashes, since the
    extractor found it by that pattern. *)
Theorem unparseable_date_skipped
    (cutoff : Z) (post : node) (posts : list node)
    (queue : list str) (acc : list record) (d : record) (s : str) :
  extract_dividend_data post = Some d →
  d !! "Date_of_Announcement" = Some s →
  strptime s = None →
  has_date_form "-" s = true
  ∧ scan_posts cutoff (post :: posts) queue acc
    = scan_posts cutoff posts queue acc.
Proof.
  intros E Hs Hp. split.
  - apply extract_fields in E as (_ & _ & _ & _ & _ & _ & _ & _ & Ha & _).
    rewrite Hs in Ha.
    destruct (re_search ann_date_re (get_text post)) as [m|] eqn:Em; [|done].
    injection Ha as ->. by eapply search_ann_date.
  - rewrite scan_posts_cons. unfold below_cutoff, in_range, announcement_date.
    rewrite E, Hs, Hp. simpl. by rewrite app_nil_r.
Qed.

(** The sample post announced on 31 February. *)
Lemma unparseable_date_skipped_witness :
  has_date_form "-" "31-Feb-2024" = true
  ∧ scan_posts 2021 [post_feb31; post_2010] [page2_url] []
    = scan_posts 2021 [post_2010] [page2_url] [].
Proof.
  destruct (some_by_eval (extract_dividend_data post_feb31)) as [d E];
    [vm_compute; reflexivity|].
  apply (unparseable_date_skipped 2021 post_feb31 [post_2010] [page2_url] []
           d "31-Feb-2024" E).
  - assert (extract_dividend_data post_feb31
              ≫= (λ d : record, d !! "Date_of_Announcement")
            = Some ("31-Feb-2024" : str)) as H by (vm_compute; reflexivity).
    by rewrite E in H.
  - vm_compute. reflexivity.
Defined.

(** ** More on the extractor *)

Lemma lookup_set_line_eq (lines : list str) (k : string) (data : record) :
  match lines with _ :: line1 :: _ => <[k := line1]> data | _ => data end !! k
  = match lines with _ :: line1 :: _ => Some line1 | _ => data !! k end.
Proof. destruct lines as [|? [|? ?]]; by rewrite ?lookup_insert_eq. Qed.

Lemma extract_other_fields post data :
  extract_dividend_data post = Some data →
  data !! "Company_Name"
    = match List.filter nonempty (strip <$> split_lines (get_text post)) with
      | _ :: line1 :: _ => Some line1
      | _ => None
      end
  ∧ data !! "Financial_Year"
    = (λ m, strip (group m 1)) <$> re_search fy_re (get_text post)
  ∧ data !! "Dividend_Rate"
    = (λ m, "Rs. " ++ group m 1) <$> re_search rate_re (get_text post)
  ∧ ∀ k, k ∉ field_names → data !! k = None.
Proof.
  unfold extract_dividend_data. intros H.
  destruct (find _ AnyClass post) as [title_elem|] eqn:Ht; [|done].
  destruct (find _ AnyClass title_elem) as [title_link|] eqn:Hl; [|done].
  destruct (re_search title_date_re _) as [date_match|] eqn:Hd; [|done].
  injection H as <-.
  split_and!; skip_other_fields.
  - rewrite lookup_set_line_eq. skip_other_fields. by rewrite lookup_empty.
  - rewrite lookup_set_if_eq. skip_other_fields. by rewrite lookup_empty.
  - rewrite lookup_set_if_eq. skip_other_fields. by rewrite lookup_empty.
  - intros k Hk. unfold field_names in Hk.
    repeat (apply not_elem_of_cons in Hk as [? Hk]).
    skip_other_fields. by rewrite lookup_empty.
Qed.

Lemma occurs_fy text pre g :
  occurs_at fy_re text pre g →
  ∃ v, v ≠ [] ∧ Forall (λ c, is_fy_char c = true) v ∧ g = {[1 := v]}.
Proof.
  unfold occurs_at, fy_re, Plus. cbn [matches].
  intros (w & rest & -> & w2 & v & g2 & -> & (l & s & g1 & -> & Hl & Hs)
          & g0 & (v1 & v2 & gv & -> & (c & Hc & -> & ->) & Hv & ->) & ->).
  apply matches_Lit in Hl as [_ ->].
  apply matches_sep in Hs as (-> & _).
  exists ([c] ++ v2). split_and!; [done| |done].
  by constructor.
Qed.

Lemma occurs_rate text pre g :
  occurs_at rate_re text pre g →
  ∃ v, v ≠ [] ∧ Forall (λ c, is_rate_char c = true) v ∧ g = {[1 := v]}.
Proof.
  unfold occurs_at, rate_re, Plus. cbn [matches].
  intros (w & rest & -> & w6 & ps & g6 & -> & (w5 & ws2 & g5 & ->
          & (w4 & v & g4 & -> & (w3 & ws1 & g3 & -> & (w2 & rs & g2 & ->
          & (l & s & g1 & -> & Hl & Hs) & Hrs) & Hws1 & ->)
          & g0 & (v1 & v2 & gv & -> & (c & Hc & -> & ->) & Hv & ->) & ->)
          & Hws2 & ->) & Hps).
  apply matches_Lit in Hl as [_ ->].
  apply matches_sep in Hs as (-> & _).
  apply matches_Lit in Hrs as [_ ->].
  apply matches_Lit in Hps as [_ ->].
  exists ([c] ++ v2). split_and!; [done| |done].
  by constructor.
Qed.

Lemma lstrip_suffix s : ∃ ws, s = ws ++ lstrip s ∧ spaces ws.
Proof.
  induction s as [|c s (ws & E & Hws)]; simpl.
  - exists []. split; [done|constructor].
  - destruct (is_space c) eqn:Hc.
    + exists (c :: ws). split; [by rewrite <- app_comm_cons, <- E|].
      by constructor.
    + exists []. split; [done|constructor].
Qed.

(** [strip] cuts white space off both ends and nothing else. *)
Lemma strip_middle s : ∃ ws ws', s = ws ++ strip s ++ ws' ∧ spaces ws ∧ spaces ws'.
Proof.
  destruct (lstrip_suffix s) as (ws & E & Hws).
  destruct (lstrip_suffix (rev (lstrip s))) as (rws & E' & Hrws).
  exists ws, (rev rws). split_and!; [|done|by apply Forall_rev].
  unfold strip, rstrip. rewrite <- rev_app_distr, <- E', rev_involutive. done.
Qed.

Lemma strip_Forall (P : ascii → Prop) s : Forall P s → Forall P (strip s).
Proof.
  intros H. destruct (strip_middle s) as (ws & ws' & E & _).
  rewrite E in H. apply Forall_app in H as [_ H].
  by apply Forall_app in H as [H _].
Qed.

Lemma lstrip_head_not_space s c t : lstrip s = c :: t → is_space c = false.
Proof.
  induction s as [|c' s IH]; simpl; [done|].
  destruct (is_space c') eqn:E; [done|]. by intros [= <- _].
Qed.

Lemma lstrip_fixed s :
  match s with c :: _ => is_space c = false | [] => True end → lstrip s = s.
Proof. destruct s as [|c s]; simpl; [done|]. by intros ->. Qed.

Lemma lstrip_lstrip s : lstrip (lstrip s) = lstrip s.
Proof.
  apply lstrip_fixed. destruct (lstrip s) as [|c t] eqn:E; [done|].
  by eapply lstrip_head_not_space.
Qed.

Lemma lstrip_snoc s c :
  is_space c = false → ∃ u, lstrip (s ++ [c]) = u ++ [c].
Proof.
  intros Hc. induction s as [|c' s (u & IH)]; simpl.
  - rewrite Hc. by exists [].
  - destruct (is_space c'); [by exists u|]. by exists (c' :: s).
Qed.

Lemma rstrip_head c t :
  is_space c = false → ∃ u, rstrip (c :: t) = c :: u.
Proof.
  intros Hc. unfold rstrip. simpl.
  destruct (lstrip_snoc (rev t) c Hc) as (u & ->).
  exists (rev u). by rewrite rev_app_distr.
Qed.

Lemma rstrip_rstrip s : rstrip (rstrip s) = rstrip s.
Proof. unfold rstrip. by rewrite rev_involutive, lstrip_lstrip. Qed.

(** [strip] is idempotent: a stripped string has no white space at either
    end. *)
Lemma strip_strip s : strip (strip s) = strip s.
Proof.
  unfold strip.
  assert (lstrip (rstrip (lstrip s)) = rstrip (lstrip s)) as ->;
    [|apply rstrip_rstrip].
  destruct (lstrip s) as [|c t] eqn:E; [done|].
  apply lstrip_head_not_space in E.
  destruct (rstrip_head c t E) as (u & ->). by apply lstrip_fixed.
Qed.

Lemma date_form_dashes d :
  has_date_form "." d = true → has_date_form "-" (replace_dots d) = true.
Proof.
  intros H. do 12 (destruct d as [|? d]; try done).
  cbv beta iota delta [has_date_form] in H.
  repeat match type of H with
         | (_ && _) = true => apply andb_true_iff in H as [H ?]
         end.
  repeat match goal with
         | H : Ascii.eqb _ _ = true |- _ => apply Ascii.eqb_eq in H; subst
         end.
  assert (∀ c, is_digit c = true →
               (if Ascii.eqb c "." then "-"%char else c) = c) as Hdig.
  { intros c Hc.
    destruct c as [[] [] [] [] [] [] [] []]; by vm_compute in Hc |- *. }
  assert (∀ c, is_alpha c = true →
               (if Ascii.eqb c "." then "-"%char else c) = c) as Halp.
  { intros c Hc.
    destruct c as [[] [] [] [] [] [] [] []]; by vm_compute in Hc |- *. }
  unfold replace_dots. cbn [map].
  repeat match goal with
         | H : is_digit ?c = true |- _ => rewrite (Hdig c H); revert H
         | H : is_alpha ?c = true |- _ => rewrite (Halp c H); revert H
         end.
  intros. cbv beta iota delta [has_date_form].
  repeat match goal with H : _ = true |- _ => rewrite H end. done.
Qed.

Lemma lstrip_nil_blank s : lstrip s = [] ↔ blank s = true.
Proof.
  induction s as [|c s IH]; simpl; [done|].
  destruct (is_space c); simpl; [done|]. split; done.
Qed.

Lemma strip_nonempty s : nonempty (strip s) = negb (blank s).
Proof.
  unfold strip. destruct (lstrip s) as [|c t] eqn:E.
  - apply lstrip_nil_blank in E. by rewrite E.
  - assert (blank s = false) as ->.
    { destruct (blank s) eqn:Hb; [|done].
      apply lstrip_nil_blank in Hb. congruence. }
    apply lstrip_head_not_space in E.
    by destruct (rstrip_head c t E) as (u & ->).
Qed.

Lemma filter_strip_lines (lines : list str) :
  List.filter nonempty (strip <$> lines)
  = strip <$> List.filter (λ l, negb (blank l)) lines.
Proof.
  induction lines as [|l lines IH]; [done|].
  rewrite fmap_cons. cbn [List.filter]. rewrite strip_nonempty, IH.
  by destruct (blank l).
Qed.

Lemma split_lines_no_newline s :
  Forall (λ line, Forall (λ c, c ≠ "010"%char) line) (split_lines s).
Proof.
  induction s as [|c s IH]; simpl.
  - repeat constructor.
  - destruct (Ascii.eqb c "010") eqn:E.
    + by constructor.
    + apply Ascii.eqb_neq in E.
      destruct (split_lines s) as [|l ls]; [repeat constructor; done|].
      apply Forall_cons in IH as [? ?]. constructor; [|done]. by constructor.
Qed.

(** X1.  A record that the extractor returns always has a [Post_Date],
    so it is never the empty [dict], and it has no field outside the
    seven the function sets. *)
Theorem record_fields (post : node) (data : record) :
  extract_dividend_data post = Some data →
  is_Some (data !! "Post_Date")
  ∧ truthy data = true
  ∧ ∀ k, is_Some (data !! k) → k ∈ field_names.
Proof.
  intros H.
  destruct (extract_other_fields post data H) as (_ & _ & _ & Hother).
  apply extract_fields in H as (_ & _ & m & _ & _ & _ & Hp & _).
  split_and!.
  - eauto.
  - unfold truthy. apply negb_true_iff, bool_decide_eq_false. intros ->.
    by rewrite lookup_empty in Hp.
  - intros k [v Hk]. destruct (decide (k ∈ field_names)) as [|Hn]; [done|].
    rewrite (Hother k Hn) in Hk. done.
Qed.

Lemma record_fields_witness :
  ∃ data, extract_dividend_data post_tba = Some data
    ∧ is_Some (data !! "Post_Date")
    ∧ data !! "Dividend_Rate" = None.
Proof.
  destruct (some_by_eval (extract_dividend_data post_tba)) as [data E];
    [vm_compute; reflexivity|].
  exists data. split; [exact E|].
  destruct (record_fields post_tba data E) as (Hp & _ & Hk).
  split; [exact Hp|].
  assert (extract_dividend_data post_tba
            ≫= (λ d : record, d !! "Dividend_Rate") = None) as H
    by (vm_compute; reflexivity).
  by rewrite E in H.
Defined.

(** X2.  The three date fields of a record have one shape: [Post_Date]
    and [Date_of_Announcement] are two digits, three letters and four
    digits joined by dashes, and [XD_Date] is either the word TBA or a date
    of that same dashed shape (no dot is left in it). *)
Theorem record_date_shapes (post : node) (data : record) :
  extract_dividend_data post = Some data →
  (∀ s : str, data !! "Post_Date" = Some s → has_date_form "-" s = true)
  ∧ (∀ s : str, data !! "Date_of_Announcement" = Some s →
          has_date_form "-" s = true)
  ∧ (∀ s : str, data !! "XD_Date" = Some s →
          s = "TBA" ∨ has_date_form "-" s = true).
Proof.
  intros H.
  apply extract_fields in H as (_ & title_link & m & _ & _ & Hm & Hp & _ & Ha
                                & Hxd).
  split_and!.
  - intros s Hs. rewrite Hp in Hs. injection Hs as <-.
    apply search_title_date in Hm as (pre & (post' & _ & Hd) & _). done.
  - intros s Hs. rewrite Ha in Hs.
    destruct (re_search ann_date_re (get_text post)) as [ma|] eqn:E; [|done].
    injection Hs as <-. by eapply search_ann_date.
  - intros s Hs. rewrite Hxd in Hs.
    destruct (re_search xd_re (get_text post)) as [mx|] eqn:E.
    + injection Hs as <-. right.
      apply search_xd in E as (pre & [_ Hd] & _). by apply date_form_dashes.
    + destruct (re_search xd_tba_re (get_text post)); [|done].
      injection Hs as <-. by left.
Qed.

Lemma record_date_shapes_witness :
  ∃ data, extract_dividend_data post_2024 = Some data
    ∧ ∀ s : str, data !! "XD_Date" = Some s →
           s = "TBA" ∨ has_date_form "-" s = true.
Proof.
  destruct (some_by_eval (extract_dividend_data post_2024)) as [data E];
    [vm_compute; reflexivity|].
  exists data. split; [exact E|].
  apply (record_date_shapes post_2024 data E).
Defined.

(** X3.  [Company_Name] is the second line of the post's text that is not
    blank, with the white space cut off its ends; the field is absent when
    the text has fewer than two such lines.  The stored name is never empty,
    has no white space at either end and no line break inside. *)
Theorem company_name_of_record (post : node) (data : record) :
  extract_dividend_data post = Some data →
  data !! "Company_Name"
    = strip <$> List.filter (λ l, negb (blank l))
                  (split_lines (get_text post)) !! 1
  ∧ ∀ v : str, data !! "Company_Name" = Some v →
      v ≠ [] ∧ strip v = v ∧ Forall (λ c, c ≠ "010"%char) v.
Proof.
  intros H. apply extract_other_fields in H as (Hn & _).
  rewrite filter_strip_lines in Hn.
  assert (data !! "Company_Name"
          = strip <$> List.filter (λ l, negb (blank l))
                        (split_lines (get_text post)) !! 1) as E.
  { rewrite Hn.
    by destruct (List.filter _ (split_lines _)) as [|? [|? ?]]. }
  split; [done|].
  intros v Hv. rewrite E in Hv.
  destruct (List.filter _ _ !! 1) as [line|] eqn:El; [|done].
  injection Hv as <-.
  apply list_elem_of_lookup_2, list_elem_of_In, filter_In in El as [Hin Hb].
  split_and!.
  - intros Hs. pose proof (strip_nonempty line) as Hne.
    rewrite Hs in Hne. simpl in Hne. by rewrite <- Hne in Hb.
  - apply strip_strip.
  - apply strip_Forall.
    pose proof (split_lines_no_newline (get_text post)) as Hall.
    rewrite Forall_forall in Hall. apply Hall. by apply list_elem_of_In.
Qed.

Lemma company_name_of_record_witness :
  ∃ data, extract_dividend_data post_2024 = Some data
    ∧ data !! "Company_Name" = Some ("ABC Holdings PLC" : str).
Proof.
  destruct (some_by_eval (extract_dividend_data post_2024)) as [data E];
    [vm_compute; reflexivity|].
  exists data. split; [exact E|].
  rewrite (proj1 (company_name_of_record post_2024 data E)).
  vm_compute. reflexivity.
Defined.

(** X4.  The other optional fields have fixed shapes.  [Company_Code] is
    a non-empty run of capital letters.  [Financial_Year] holds digits,
    slashes and white space only and has no white space at either end (it
    may be empty).  [Dividend_Rate] is the text [Rs. ] followed by a
    non-empty run of digits and dots. *)
Theorem record_value_shapes (post : node) (data : record) :
  extract_dividend_data post = Some data →
  (∀ v : str, data !! "Company_Code" = Some v →
      v ≠ [] ∧ Forall (λ c, is_upper c = true) v)
  ∧ (∀ v : str, data !! "Financial_Year" = Some v →
      Forall (λ c, is_fy_char c = true) v ∧ strip v = v)
  ∧ (∀ v : str, data !! "Dividend_Rate" = Some v →
      ∃ number, v = "Rs. " ++ number ∧ number ≠ []
        ∧ Forall (λ c, is_rate_char c = true) number).
Proof.
  intros H.
  destruct (extract_other_fields post data H) as (_ & Hfy & Hrate & _).
  apply extract_fields in H as (_ & title_link & _ & _ & _ & _ & _ & Hc & _).
  split_and!.
  - intros v Hv. rewrite Hc in Hv.
    destruct (re_search code_re (get_text title_link)) as [m|] eqn:E; [|done].
    injection Hv as <-.
    apply search_code in E as (_ & _ & _ & _ & _ & _ & ? & ? & _). done.
  - intros v Hv. rewrite Hfy in Hv.
    destruct (re_search fy_re (get_text post)) as [m|] eqn:E; [|done].
    injection Hv as <-.
    apply re_search_sound in E as (pre & Ho & _).
    apply occurs_fy in Ho as (w & _ & Hw & Hg).
    rewrite (group_singleton _ _ _ Hg).
    split; [by apply strip_Forall|apply strip_strip].
  - intros v Hv. rewrite Hrate in Hv.
    destruct (re_search rate_re (get_text post)) as [m|] eqn:E; [|done].
    injection Hv as <-.
    apply re_search_sound in E as (pre & Ho & _).
    apply occurs_rate in Ho as (w & Hne & Hw & Hg).
    rewrite (group_singleton _ _ _ Hg). by exists w.
Qed.

Lemma record_value_shapes_witness :
  ∃ data, extract_dividend_data post_2024 = Some data
    ∧ ∀ v : str, data !! "Dividend_Rate" = Some v →
        ∃ number, v = "Rs. " ++ number ∧ number ≠ []
          ∧ Forall (λ c, is_rate_char c = true) number.
Proof.
  destruct (some_by_eval (extract_dividend_data post_2024)) as [data E];
    [vm_compute; reflexivity|].
  exists data. split; [exact E|].
  apply (record_value_shapes post_2024 data E).
Defined.

(** X5.  A record has no [XD_Date] exactly when the text of the post
    holds neither an XD line with a dotted date nor an XD line with TBA. *)
Theorem xd_date_absent (post : node) (data : record) :
  extract_dividend_data post = Some data →
  data !! "XD_Date" = None ↔
  (∀ pre d, ¬ xd_date_at (get_text post) pre d)
  ∧ (∀ pre, ¬ xd_tba_at (get_text post) pre).
Proof.
  intros H.
  apply extract_fields in H as (_ & _ & _ & _ & _ & _ & _ & _ & _ & Hxd).
  rewrite Hxd, <- search_xd_none, <- search_xd_tba_none.
  destruct (re_search xd_re (get_text post)),
    (re_search xd_tba_re (get_text post)); simpl;
    split; try done; by intros [? ?].
Qed.

Lemma xd_date_absent_witness :
  ∃ data, extract_dividend_data post_2010 = Some data
    ∧ data !! "XD_Date" = None.
Proof.
  destruct (some_by_eval (extract_dividend_data post_2010)) as [data E];
    [vm_compute; reflexivity|].
  exists data. split; [exact E|].
  apply (xd_date_absent post_2010 data E). split.
  - apply search_xd_none, none_by_eval. vm_compute. reflexivity.
  - apply search_xd_tba_none, none_by_eval. vm_compute. reflexivity.
Defined.

Lemma occurs_ann_date_iff text pre g :
  occurs_at ann_date_re text pre g ↔
  ∃ d, ann_date_at text pre d ∧ g = {[1 := d]}.
Proof.
  unfold occurs_at, ann_date_re, dash_date, ann_date_at, labelled_at.
  cbn [matches]. split.
  - intros (w & rest & -> & w4 & d & g4 & -> & (w3 & s & g3 & ->
            & (w2 & l2 & g2 & -> & (l1 & o & g1 & -> & Hl1 & Ho) & Hl2) & Hs)
            & g0 & Hd & ->).
    apply matches_Lit in Hl1 as [-> ->].
    apply matches_Lit in Hl2 as [-> ->].
    apply matches_sep in Hs as (-> & ws1 & dash & ws2 & -> & ? & ? & ?).
    apply matches_date_with in Hd as [Hd ->].
    exists d. split; [|by destruct Ho as [Ho|[_ ->]];
                         [apply matches_Lit in Ho as [_ ->]|]].
    split; [|done].
    destruct Ho as [Ho|[-> _]]; [apply matches_Lit in Ho as [-> _]; right|left];
      exists ws1, dash, ws2, rest; by rewrite <- !app_assoc.
  - intros (d & ([(ws1 & dash & ws2 & post & -> & ? & ? & ?)
                 |(ws1 & dash & ws2 & post & -> & ? & ? & ?)] & Hd) & ->).
    + exists ("Date of Announcement:" ++ ws1 ++ dash ++ ws2 ++ d), post.
      split; [by rewrite <- !app_assoc|].
      exists ("Date of Announcement:" ++ ws1 ++ dash ++ ws2), d, ∅.
      split; [by rewrite <- !app_assoc|]. split.
      * exists ("Date of Announcement:" : str), (ws1 ++ dash ++ ws2), ∅.
        split; [done|]. split.
        -- exists ("Date of " : str), ("Announcement:" : str), ∅.
           split; [done|]. split; [|by apply matches_Lit].
           exists ("Date of " : str), [], ∅.
           split; [done|]. split; [by apply matches_Lit|by right].
        -- apply matches_sep. split; [done|]. by exists ws1, dash, ws2.
      * exists ∅. split; [|done]. by apply matches_date_with.
    + exists ("Date of Initial Announcement:" ++ ws1 ++ dash ++ ws2 ++ d), post.
      split; [by rewrite <- !app_assoc|].
      exists ("Date of Initial Announcement:" ++ ws1 ++ dash ++ ws2), d, ∅.
      split; [by rewrite <- !app_assoc|]. split.
      * exists ("Date of Initial Announcement:" : str),
          (ws1 ++ dash ++ ws2), ∅.
        split; [done|]. split.
        -- exists ("Date of Initial " : str), ("Announcement:" : str), ∅.
           split; [done|]. split; [|by apply matches_Lit].
           exists ("Date of " : str), ("Initial " : str), ∅.
           split; [done|]. split; [by apply matches_Lit|].
           left. by apply matches_Lit.
        -- apply matches_sep. split; [done|]. by exists ws1, dash, ws2.
      * exists ∅. split; [|done]. by apply matches_date_with.
Qed.

Lemma labelled_value_unique label text pre d d' :
  labelled_at label text pre d → labelled_at label text pre d' →
  has_date_form "-" d = true → has_date_form "-" d' = true → d = d'.
Proof.
  intros (ws1 & dash & ws2 & post & -> & H1 & Hd & H2)
         (ws1' & dash' & ws2' & post' & E & H1' & Hd' & H2') H H'.
  do 2 apply app_inv_head in E.
  apply date_form_head in H as (c0 & v & -> & Hc0 & Hl).
  apply date_form_head in H' as (c0' & v' & -> & Hc0' & Hl').
  apply (f_equal after_sep) in E.
  rewrite <- !app_comm_cons in E.
  rewrite !after_sep_value in E
    by auto using digit_not_space, digit_not_dash.
  rewrite !app_comm_cons in E.
  eapply same_head; eauto. congruence.
Qed.

Lemma ann_date_at_prefix text pre d :
  ann_date_at text pre d → ∃ x, text = pre ++ x.
Proof. intros [[L|L] _]; destruct L as (? & ? & ? & ? & -> & _); eauto. Qed.

Lemma ann_date_unique text pre d d' :
  ann_date_at text pre d → ann_date_at text pre d' → d = d'.
Proof.
  intros [[L|L] H] [[L'|L'] H'].
  - by eapply labelled_value_unique.
  - destruct L as (? & ? & ? & ? & -> & _), L' as (? & ? & ? & ? & E & _).
    apply app_inv_head in E. discriminate E.
  - destruct L as (? & ? & ? & ? & -> & _), L' as (? & ? & ? & ? & E & _).
    apply app_inv_head in E. discriminate E.
  - by eapply labelled_value_unique.
Qed.

(** X6.  For a record, [Date_of_Announcement] is found by the label
    [Date of Announcement:] or [Date of Initial Announcement:], followed by
    optional white space, an optional dash, optional white space and a
    dashed date: the field is the date of the leftmost such place in the
    text of the post, and it is absent exactly when there is no such
    place. *)
Theorem announcement_of_record (post : node) (data : record) :
  extract_dividend_data post = Some data →
  (∀ pre d,
     ann_date_at (get_text post) pre d →
     (∀ pre' d', ann_date_at (get_text post) pre' d' →
                 length pre ≤ length pre') →
     data !! "Date_of_Announcement" = Some d)
  ∧ (data !! "Date_of_Announcement" = None ↔
     ∀ pre d, ¬ ann_date_at (get_text post) pre d).
Proof.
  intros H.
  apply extract_fields in H as (_ & _ & _ & _ & _ & _ & _ & _ & Ha & _).
  rewrite Ha. split.
  - intros pre d Hd Hleft.
    destruct (re_search ann_date_re (get_text post)) as [m|] eqn:E; simpl.
    + apply re_search_sound in E as (pre0 & Ho & _ & Hl0).
      pose proof Ho as Ho'.
      apply occurs_ann_date_iff in Ho as (d0 & Hd0 & Hg).
      rewrite (group_singleton _ _ _ Hg). f_equal.
      assert (length pre0 ≤ length pre) as Hle1.
      { apply (Hl0 pre {[1 := d]}), occurs_ann_date_iff. eauto. }
      assert (length pre ≤ length pre0) as Hle2 by eauto.
      destruct (ann_date_at_prefix _ _ _ Hd0) as (x0 & E0).
      destruct (ann_date_at_prefix _ _ _ Hd) as (x & E1).
      rewrite E0 in E1. apply same_prefix in E1 as [-> _]; [|lia].
      by eapply ann_date_unique.
    + exfalso. apply (proj1 (re_search_none _ _) E pre {[1 := d]}).
      apply occurs_ann_date_iff. eauto.
  - destruct (re_search ann_date_re (get_text post)) as [m|] eqn:E; simpl.
    + split; [done|]. intros Hnone. exfalso.
      apply re_search_sound in E as (pre0 & Ho & _).
      apply occurs_ann_date_iff in Ho as (d0 & Hd0 & _). by eapply Hnone.
    + split; [|done]. intros _ pre d Hd.
      apply (proj1 (re_search_none _ _) E pre {[1 := d]}).
      apply occurs_ann_date_iff. eauto.
Qed.

Lemma leftmost_by_search (r : regex) (text : str) (n : nat) :
  match re_search r text with
  | Some m => n <=? m_start m
  | None => true
  end = true →
  ∀ pre g, occurs_at r text pre g → n ≤ length pre.
Proof.
  intros H pre g Ho.
  destruct (re_search r text) as [m|] eqn:E.
  - apply Nat.leb_le in H. etrans; [exact H|].
    by eapply re_search_leftmost.
  - exfalso. by eapply (proj1 (re_search_none _ _) E).
Qed.

Lemma announcement_of_record_witness :
  ∃ data, extract_dividend_data post_tba = Some data
    ∧ data !! "Date_of_Announcement" = Some ("10-Jul-2024" : str).
Proof.
  destruct (some_by_eval (extract_dividend_data post_tba)) as [data E];
    [vm_compute; reflexivity|].
  exists data. split; [exact E|].
  apply (proj1 (announcement_of_record post_tba data E)
           ("11-Jul-2024 Interim Dividend - XYZ" ++ nl ++ "XYZ PLC" ++ nl)).
  - split; [|vm_compute; reflexivity]. right.
    exists (" " : str), [], [], (nl ++ "XD: - TBA" ++ nl).
    split_and!; [vm_compute; reflexivity| |by left|]; by repeat constructor.
  - intros pre' d' H'.
    apply (leftmost_by_search ann_date_re (get_text post_tba)
             (length ("11-Jul-2024 Interim Dividend - XYZ" ++ nl
                      ++ "XYZ PLC" ++ nl))
             ltac:(vm_compute; reflexivity) pre' {[1 := d']}).
    apply occurs_ann_date_iff. eauto.
Defined.

(** ** More on the crawl *)

Lemma scan_posts_extends cutoff posts queue acc :
  ∃ more, (scan_posts cutoff posts queue acc).2 = acc ++ more
    ∧ ∀ d, d ∈ more → ∃ post, post ∈ posts ∧ in_range cutoff post = Some d.
Proof.
  revert acc. induction posts as [|post posts IH]; intros acc.
  - exists []. simpl. rewrite app_nil_r. split; [done|].
    intros d Hd. by apply elem_of_nil in Hd.
  - rewrite scan_posts_cons. destruct (below_cutoff cutoff post).
    + exists []. simpl. rewrite app_nil_r. split; [done|].
      intros d Hd. by apply elem_of_nil in Hd.
    + destruct (IH (acc ++ option_list (in_range cutoff post)))
        as (more & -> & Hmore).
      exists (option_list (in_range cutoff post) ++ more).
      rewrite <- app_assoc. split; [done|].
      intros d [Hd|Hd]%elem_of_app.
      * exists post. split; [by left|].
        destruct (in_range cutoff post) as [d'|]; simpl in Hd.
        -- by apply list_elem_of_singleton in Hd as ->.
        -- by apply elem_of_nil in Hd.
      * destruct (Hmore d Hd) as (p & ? & ?). exists p. split; [by right|done].
Qed.

Section MoreCrawlFacts.
Variable fetch : str → response.
Variable current_year num_years : Z.

Local Abbreviation pass := (iteration fetch current_year num_years).
Local Abbreviation advance := (step fetch current_year num_years).
Local Abbreviation reached := (reachable fetch current_year num_years).
Local Abbreviation run := (steps fetch current_year num_years).
Local Abbreviation cutoff := (cutoff_year current_year num_years).

(** What one pass adds to the accumulator. *)
Lemma iteration_extends url rest st :
  ∃ more, all_dividends (pass url rest st) = all_dividends st ++ more
    ∧ ∀ d, d ∈ more →
        (url ∉ visited st)
        ∧ ∃ soup post, fetch url = Returns soup
            ∧ post ∈ find_posts soup ∧ in_range cutoff post = Some d.
Proof.
  destruct (decide (url ∈ visited st)) as [Hv|Hv].
  - rewrite iteration_visited by done. exists []. simpl.
    rewrite app_nil_r. split; [done|]. intros d Hd. by apply elem_of_nil in Hd.
  - destruct (fetch url) as [e|soup] eqn:E.
    + rewrite (iteration_raises _ _ _ _ _ _ e) by done. exists []. simpl.
      rewrite app_nil_r. split; [done|].
      intros d Hd. by apply elem_of_nil in Hd.
    + destruct (iteration_returns fetch current_year num_years url rest st
                  soup Hv E) as (_ & _ & _ & -> & _).
      destruct (scan_posts_extends cutoff (find_posts soup) rest
                  (all_dividends st)) as (more & -> & Hmore).
      exists more. split; [done|]. intros d Hd. split; [done|].
      destruct (Hmore d Hd) as (post & ? & ?). eauto.
Qed.

Lemma follow_older_link_empty soup seen :
  length (follow_older_link soup seen []) ≤ 1
  ∧ ∀ u, u ∈ follow_older_link soup seen [] → u ∉ seen.
Proof.
  split.
  - etrans; [apply follow_older_link_length|]. done.
  - intros u [Hu|Hu]%follow_older_link_fresh; [|done].
    by apply elem_of_nil in Hu.
Qed.

Lemma short_fresh_queue_step st st' :
  short_fresh_queue st → advance st = Some st' → short_fresh_queue st'.
Proof.
  intros [Hlen Hfresh] (url & rest & Hq & _ & ->)%step_inv.
  rewrite Hq in Hlen, Hfresh. simpl in Hlen.
  assert (rest = []) as -> by (destruct rest; [done|simpl in Hlen; lia]).
  assert (url ∉ visited st) as Hv by (apply Hfresh; by left).
  destruct (fetch url) as [e|soup] eqn:E.
  - rewrite (iteration_raises _ _ _ _ _ _ e) by done.
    split; simpl; [lia|]. intros u Hu. by apply elem_of_nil in Hu.
  - destruct (iteration_returns fetch current_year num_years url [] st soup
                Hv E) as (Hq' & Hv' & _).
    unfold short_fresh_queue. rewrite Hq', Hv'.
    destruct (scan_posts_queue cutoff (find_posts soup) []
                (all_dividends st)) as [-> | ->];
      apply follow_older_link_empty.
Qed.

Lemma reachable_short_fresh_queue st : reached st → short_fresh_queue st.
Proof.
  induction 1 as [|st st' _ IH Hs].
  - split; simpl; [lia|]. intros u _. apply not_elem_of_empty.
  - by eapply short_fresh_queue_step.
Qed.
End MoreCrawlFacts.

(** X7.  Every record in the accumulator, in every state of the crawl
    loop, has an announcement date that [strptime] accepts and whose year
    is the cutoff year or later. *)
Theorem accumulator_within_cutoff
    (fetch : str → response) (current_year num_years : Z)
    (st : crawl_state) :
  reachable fetch current_year num_years st →
  Forall (λ d, ∃ ann_date, announcement_date d = Some ann_date
                 ∧ (current_year - num_years ≤ year ann_date)%Z)
    (all_dividends st).
Proof.
  apply reachable_found. by intros post d (_ & H)%in_range_dated.
Qed.

Lemma accumulator_within_cutoff_witness :
  Forall (λ d, ∃ ann_date, announcement_date d = Some ann_date
                 ∧ (2026 - 5 ≤ year ann_date)%Z)
    (all_dividends after_page2).
Proof.
  apply (accumulator_within_cutoff sample_blog 2026 5 after_page2).
  apply after_page2_reachable.
Defined.

(** X8.  Every record in the accumulator is what [extract_dividend_data]
    returns for one of the posts of a page that was requested and
    loaded. *)
Theorem accumulator_provenance
    (fetch : str → response) (current_year num_years : Z)
    (st : crawl_state) :
  reachable fetch current_year num_years st →
  ∀ d, d ∈ all_dividends st →
    ∃ url soup post,
      url ∈ requests st ∧ fetch url = Returns soup
      ∧ post ∈ find_posts soup ∧ extract_dividend_data post = Some d.
Proof.
  induction 1 as [|st st' _ IH Hs]; intros d Hd.
  - by apply elem_of_nil in Hd.
  - apply step_inv in Hs as (url & rest & _ & _ & ->).
    destruct (iteration_extends fetch current_year num_years url rest st)
      as (more & Hacc & Hmore).
    rewrite Hacc in Hd. apply elem_of_app in Hd as [Hd|Hd].
    + destruct (IH d Hd) as (u & soup & post & Hu & ? & ? & ?).
      exists u, soup, post. split_and!; try done.
      destruct (iteration_count fetch current_year num_years url rest st)
        as [(_ & _ & -> & _)|(_ & _ & -> & _)]; [done|].
      apply elem_of_app. by left.
    + destruct (Hmore d Hd) as (Hv & soup & post & ? & ? & Hr).
      apply in_range_dated in Hr as [? _].
      exists url, soup, post. split_and!; try done.
      destruct (iteration_count fetch current_year num_years url rest st)
        as [(? & _)|(_ & _ & -> & _)]; [done|].
      apply elem_of_app. right. by apply list_elem_of_singleton.
Qed.

Lemma accumulator_provenance_witness :
  Forall (λ d, ∃ url soup post,
            url ∈ requests after_page2 ∧ sample_blog url = Returns soup
            ∧ post ∈ find_posts soup ∧ extract_dividend_data post = Some d)
    (all_dividends after_page2).
Proof.
  apply Forall_forall.
  apply (accumulator_provenance sample_blog 2026 5 after_page2).
  apply after_page2_reachable.
Defined.

(** X9.  The crawl only ever adds: from any state to any later state of
    the loop the accumulator and the list of requests are extended at
    their ends, the visited set grows, and the page counter does not go
    down. *)
Theorem crawl_only_adds
    (fetch : str → response) (current_year num_years : Z)
    (st st' : crawl_state) :
  steps fetch current_year num_years st st' →
  (∃ more, all_dividends st' = all_dividends st ++ more)
  ∧ (∃ later, requests st' = requests st ++ later)
  ∧ visited st ⊆ visited st'
  ∧ (page_count st ≤ page_count st')%Z.
Proof.
  induction 1 as [st|st st1 st2 Hs _ (IHa & IHr & IHv & IHc)].
  - split_and!; [exists []|exists []| |]; by rewrite ?app_nil_r.
  - apply step_inv in Hs as (url & rest & _ & _ & ->).
    destruct (iteration_extends fetch current_year num_years url rest st)
      as (more & Hacc & _).
    destruct IHa as (more' & ->), IHr as (later' & ->).
    rewrite Hacc.
    destruct (iteration_count fetch current_year num_years url rest st)
      as [(_ & Ec & Er & Ev)|(_ & Ec & Er & Ev)];
      rewrite Ec in IHc; rewrite Ev in IHv; rewrite Er.
    + split_and!; [exists (more ++ more')|exists later'| |];
        by rewrite <- ?app_assoc.
    + split_and!; [exists (more ++ more')|exists ([url] ++ later')| |];
        rewrite <- ?app_assoc; try done; [|lia].
      etrans; [apply union_subseteq_r|exact IHv].
Qed.

Lemma crawl_only_adds_witness :
  (∃ more, all_dividends after_page2 = all_dividends after_page1 ++ more)
  ∧ (∃ later, requests after_page2 = requests after_page1 ++ later)
  ∧ visited after_page1 ⊆ visited after_page2
  ∧ (page_count after_page1 ≤ page_count after_page2)%Z.
Proof.
  apply (crawl_only_adds sample_blog 2026 5 after_page1 after_page2).
  apply rtc_once. unfold step.
  assert (page_urls after_page1 = [page2_url]) as ->
    by (vm_compute; reflexivity).
  assert ((page_count after_page1 <? max_pages 5)%Z = true) as ->
    by (vm_compute; reflexivity).
  reflexivity.
Defined.

(** X10.  In every state of the crawl loop the queue holds at most one
    URL, and that URL has not been visited.  So the branch that skips an
    already visited URL is never taken: every pass through the loop body
    requests the URL it pops and counts a page. *)
Theorem queue_short_and_fresh
    (fetch : str → response) (current_year num_years : Z)
    (st st' : crawl_state) :
  reachable fetch current_year num_years st →
  (length (page_urls st) ≤ 1 ∧ ∀ u, u ∈ page_urls st → u ∉ visited st)
  ∧ (step fetch current_year num_years st = Some st' →
     ∃ url, page_urls st = [url]
       ∧ requests st' = requests st ++ [url]
       ∧ page_count st' = (page_count st + 1)%Z).
Proof.
  intros Hr. apply reachable_short_fresh_queue in Hr as [Hlen Hfresh].
  split; [done|].
  intros (url & rest & Hq & _ & ->)%step_inv.
  rewrite Hq in Hlen, Hfresh. simpl in Hlen.
  assert (rest = []) as -> by (destruct rest; [done|simpl in Hlen; lia]).
  exists url. split; [done|].
  destruct (iteration_count fetch current_year num_years url [] st)
    as [(Hv & _)|(_ & -> & -> & _)]; [|done].
  exfalso. apply (Hfresh url); [by left|done].
Qed.

Lemma queue_short_and_fresh_witness :
  length (page_urls after_page2) ≤ 1
  ∧ ∀ u, u ∈ page_urls after_page2 → u ∉ visited after_page2.
Proof.
  apply (queue_short_and_fresh sample_blog 2026 5 after_page2 after_page2).
  apply after_page2_reachable.
Defined.

(** X11.  With a number of years that is zero or negative the loop body
    never runs: no page is requested and the function returns the empty
    list. *)
Theorem no_years_no_crawl
    (fetch : str → response) (current_year num_years : Z) :
  (num_years ≤ 0)%Z →
  crawl fetch current_year num_years = Some (initial num_years)
  ∧ scrape_dividend_announcements fetch current_year num_years
    = Some ([], [MsgScraping num_years; MsgWait; MsgTotal 0]).
Proof.
  intros Hy.
  assert (crawl fetch current_year num_years = Some (initial num_years)) as E.
  { unfold crawl. generalize (1 + Z.to_nat (max_pages num_years)).
    intros fuel. destruct fuel; simpl; unfold step; simpl;
      destruct (Z.ltb_spec 0 (max_pages num_years)); try done;
      unfold max_pages in *; lia. }
  split; [done|]. unfold scrape_dividend_announcements. by rewrite E.
Qed.

Lemma no_years_no_crawl_witness :
  scrape_dividend_announcements sample_blog 2026 0
  = Some ([], [MsgScraping 0; MsgWait; MsgTotal 0]).
Proof. apply (no_years_no_crawl sample_blog 2026 0). lia. Defined.

(** X12.  When the fetch of the start page raises, the crawl is over
    after that one request: the error is printed and the function returns
    the empty list. *)
Theorem first_fetch_fails
    (fetch : str → response) (current_year num_years : Z) (e : str) :
  (0 < num_years)%Z →
  fetch base_url = Raises e →
  crawl fetch current_year num_years
    = Some (Crawl [] {[base_url]} 1 [] [base_url]
              [MsgScraping num_years; MsgWait; MsgError base_url e])
  ∧ scrape_dividend_announcements fetch current_year num_years
    = Some ([], [MsgScraping num_years; MsgWait; MsgError base_url e;
                 MsgTotal 0]).
Proof.
  intros Hy E.
  assert (crawl fetch current_year num_years
          = Some (Crawl [] {[base_url]} 1 [] [base_url]
                    [MsgScraping num_years; MsgWait; MsgError base_url e]))
    as Ec.
  { unfold crawl. rewrite Nat.add_1_l. cbn [crawl_loop].
    unfold step at 1. cbn [page_urls initial page_count].
    destruct (Z.ltb_spec 0 (max_pages num_years));
      [|unfold max_pages in *; lia].
    rewrite (iteration_raises _ _ _ _ _ _ e) by (simpl; set_solver || done).
    cbn [visited initial page_count all_dividends requests printed].
    rewrite union_empty_r_L. simpl.
    by destruct (Z.to_nat (max_pages num_years)). }
  split; [done|]. unfold scrape_dividend_announcements. by rewrite Ec.
Qed.

Lemma first_fetch_fails_witness :
  scrape_dividend_announcements (λ _, Raises "timed out") 2026 5
  = Some ([], [MsgScraping 5; MsgWait; MsgError base_url "timed out";
               MsgTotal 0]).
Proof.
  apply (first_fetch_fails (λ _, Raises "timed out") 2026 5 "timed out");
    [lia|reflexivity].
Defined.

(** X13.  A page that loads but has no older-posts link (no [a] tag with
    the class [blog-pager-older-link]) is the last page of the crawl: the
    pass that fetches it leaves the queue empty, and the loop stops. *)
Theorem no_older_link_ends_crawl
    (fetch : str → response) (current_year num_years : Z)
    (st st' : crawl_state) (url : str) (rest : list str) (soup : node) :
  reachable fetch current_year num_years st →
  page_urls st = url :: rest →
  step fetch current_year num_years st = Some st' →
  fetch url = Returns soup →
  find [("a" : str)] (ClassIs "blog-pager-older-link") soup = None →
  page_urls st' = [] ∧ step fetch current_year num_years st' = None.
Proof.
  intros Hr Hq Hs E Hf.
  destruct (reachable_short_fresh_queue _ _ _ _ Hr) as [Hlen Hfresh].
  apply step_inv in Hs as (url' & rest' & Hq' & _ & ->).
  rewrite Hq in Hq'. injection Hq' as <- <-.
  rewrite Hq in Hlen, Hfresh. simpl in Hlen.
  assert (rest = []) as -> by (destruct rest; [done|simpl in Hlen; lia]).
  assert (url ∉ visited st) as Hv by (apply Hfresh; by left).
  destruct (iteration_returns fetch current_year num_years url [] st soup
              Hv E) as (Hq' & _).
  assert (page_urls (iteration fetch current_year num_years url [] st) = [])
    as Hempty.
  { rewrite Hq'. unfold follow_older_link. rewrite Hf.
    by destruct (scan_posts_queue (cutoff_year current_year num_years)
                   (find_posts soup) [] (all_dividends st)) as [-> | ->]. }
  split; [done|]. unfold step. by rewrite Hempty.
Qed.

Lemma no_older_link_ends_crawl_witness :
  page_urls (iteration one_page_blog 2026 5 base_url [] (initial 5)) = []
  ∧ step one_page_blog 2026 5
      (iteration one_page_blog 2026 5 base_url [] (initial 5)) = None.
Proof.
  apply (no_older_link_ends_crawl one_page_blog 2026 5 (initial 5) _
           base_url [] (sample_page [post_2024] [])).
  - apply reachable_initial.
  - reflexivity.
  - reflexivity.
  - reflexivity.
  - apply none_by_eval. vm_compute. reflexivity.
Defined.

(** X14.  When no post of a fetched page is dated before the cutoff year,
    the pass keeps the rest of the queue, appends the in-range records of
    all the posts of the page in their order, and then runs the pagination
    step on the queue that was kept. *)
Theorem page_without_stop_signal
    (fetch : str → response) (current_year num_years : Z)
    (st : crawl_state) (url : str) (rest : list str) (soup : node) :
  url ∉ visited st →
  fetch url = Returns soup →
  Forall (λ p, below_cutoff (cutoff_year current_year num_years) p = false)
    (find_posts soup) →
  let st' := iteration fetch current_year num_years url rest st in
  all_dividends st'
    = all_dividends st
      ++ omap (in_range (cutoff_year current_year num_years))
           (find_posts soup)
  ∧ page_urls st' = follow_older_link soup ({[url]} ∪ visited st) rest.
Proof.
  intros Hv E Hall st'.
  destruct (iteration_returns fetch current_year num_years url rest st soup
              Hv E) as (Hq & _ & _ & Hacc & _).
  rewrite (scan_posts_in_range _ _ _ _ Hall) in Hq, Hacc. done.
Qed.

Lemma page_without_stop_signal_witness :
  page_urls after_page1 = [page2_url]
  ∧ length (all_dividends after_page1) = 2.
Proof.
  destruct (page_without_stop_signal sample_blog 2026 5 (initial 5) base_url
              []
              (sample_page [post_2024; post_feb31; post_tba]
                 [older_link page2_url]))
    as (Hacc & Hq).
  - apply not_elem_of_empty.
  - vm_compute. reflexivity.
  - by_eval.
  - split; [vm_compute; reflexivity|].
    unfold after_page1. rewrite Hacc. vm_compute. reflexivity.
Defined.

(** What one pass prints. *)
Lemma iteration_printed fetch current_year num_years url rest st :
  let st' := iteration fetch current_year num_years url rest st in
  (url ∈ visited st ∧ printed st' = printed st)
  ∨ (∃ e, (url ∉ visited st) ∧ fetch url = Raises e
       ∧ printed st' = printed st ++ [MsgError url e])
  ∨ (∃ soup, (url ∉ visited st) ∧ fetch url = Returns soup
       ∧ (printed st' = printed st
          ∨ ((page_count st + 1) mod 5 = 0)%Z
            ∧ ∃ found, printed st'
                = printed st ++ [MsgProgress (page_count st + 1) found])).
Proof.
  intros st'. subst st'. unfold iteration.
  destruct (decide (url ∈ visited st)) as [Hv|Hv]; [by left|].
  destruct (fetch url) as [e|soup] eqn:E.
  - right; left. exists e. auto.
  - right; right. exists soup. split_and!; [done..|].
    destruct (scan_posts _ _ _ _) as [queue found]. simpl.
    destruct (Z.eqb_spec ((page_count st + 1) mod 5) 0); [|by left].
    right. split; [done|]. by exists (length found).
Qed.

(** X15.  The output of the crawl tells the truth about the fetches: an
    error line names a URL that was requested and whose fetch raised that
    error, every requested URL whose fetch raised has its error line, and
    a progress line carries a page count that is a multiple of five and
    was reached. *)
Theorem crawl_log_sound
    (fetch : str → response) (current_year num_years : Z)
    (st : crawl_state) :
  reachable fetch current_year num_years st →
  (∀ url e, MsgError url e ∈ printed st ↔
            url ∈ requests st ∧ fetch url = Raises e)
  ∧ (∀ n found, MsgProgress n found ∈ printed st →
       (n mod 5 = 0 ∧ 1 ≤ n ≤ page_count st)%Z).
Proof.
  induction 1 as [|st st' Hr (IHe & IHp) Hs].
  - split.
    + intros url e. simpl. split.
      * intros Hin. repeat (apply elem_of_cons in Hin as [Hin|Hin]; [done|]).
        by apply elem_of_nil in Hin.
      * intros [Hin _]. by apply elem_of_nil in Hin.
    + intros n found Hin. simpl in Hin.
      repeat (apply elem_of_cons in Hin as [Hin|Hin]; [done|]).
      by apply elem_of_nil in Hin.
  - apply step_inv in Hs as (url & rest & _ & _ & ->).
    pose proof (iteration_printed fetch current_year num_years url rest st)
      as Hpr. simpl in Hpr.
    destruct (iteration_count fetch current_year num_years url rest st)
      as [(Hv & Ec & Er & _)|(Hv & Ec & Er & _)]; rewrite Ec, Er.
    { destruct Hpr as [[_ ->]|[(e & ? & _)|(? & ? & _)]]; done. }
    destruct Hpr as [[? _]|[(e & _ & E & ->)|(soup & _ & E & Hpr)]];
      [done| |].
    + split.
      * intros u e'.
        rewrite !elem_of_app, !list_elem_of_singleton, IHe.
        split.
        -- intros [[? ?]|[= -> ->]]; auto.
        -- intros [[?| ->] E']; [auto|]. right. congruence.
      * intros n k' Hin. apply elem_of_app in Hin as [Hin|Hin].
        -- apply IHp in Hin. lia.
        -- by apply list_elem_of_singleton in Hin.
    + assert (∀ u e', (u ∈ requests st ∧ fetch u = Raises e')
                      ↔ (u ∈ requests st ++ [url] ∧ fetch u = Raises e'))
        as Hreq.
      { intros u e'. rewrite elem_of_app, list_elem_of_singleton.
        split; [intros [? ?]; auto|].
        intros [[?| ->] E']; [auto|congruence]. }
      destruct Hpr as [-> |(Hm & k & ->)].
      * split.
        -- intros u e'. by rewrite IHe, Hreq.
        -- intros n k Hin. apply IHp in Hin. lia.
      * split.
        -- intros u e'. rewrite <- Hreq, <- IHe.
           rewrite elem_of_app, list_elem_of_singleton. split; [|auto].
           by intros [?|?].
        -- intros n k' Hin. apply elem_of_app in Hin as [Hin|Hin].
           ++ apply IHp in Hin. lia.
           ++ apply list_elem_of_singleton in Hin. injection Hin as -> _.
              split; [done|].
              pose proof (reachable_consistent _ _ _ _ Hr) as (_ & _ & Hc).
              lia.
Qed.

Lemma after_page3_reachable : reachable sample_blog 2026 5 after_page3.
Proof.
  eapply reachable_step; [apply after_page2_reachable|].
  unfold step.
  assert (page_urls after_page2 = [page3_url]) as ->
    by (vm_compute; reflexivity).
  assert ((page_count after_page2 <? max_pages 5)%Z = true) as ->
    by (vm_compute; reflexivity).
  reflexivity.
Qed.

Lemma crawl_log_sound_witness :
  MsgError page3_url "HTTPSConnectionPool: Max retries exceeded"
    ∈ printed after_page3.
Proof.
  apply (crawl_log_sound sample_blog 2026 5 after_page3
           after_page3_reachable).
  split.
  - by_eval.
  - vm_compute. reflexivity.
Defined.

(** ** More on the month filter *)

Lemma filter_by_month_filter dividends month_number :
  filter_by_month dividends month_number
  = List.filter (announced_in month_number) dividends.
Proof. unfold filter_by_month. by rewrite filter_by_month_from. Qed.

(** What [strptime] returns is a date of the calendar. *)
Lemma strptime_valid s dt :
  strptime s = Some dt →
  (1 ≤ year dt ≤ 9999 ∧ 1 ≤ month dt ≤ 12
   ∧ 1 ≤ day dt ≤ days_in_month (year dt) (month dt))%Z.
Proof.
  unfold strptime. destruct (re_match format_regex s) as [found|]; [|done].
  destruct (negb _); [done|].
  generalize (int (group found 3)) (index a_month (lower <$> group found 2))
    (int (group found 1)).
  intros y m d. unfold datetime_new.
  destruct (_ && _) eqn:E; [|done]. intros [= <-]. simpl.
  rewrite !andb_true_iff, !Z.leb_le in E. lia.
Qed.

Lemma announced_in_month month_number d :
  announced_in month_number d = true ↔
  ∃ dt, announcement_date d = Some dt ∧ month dt = month_number.
Proof.
  unfold announced_in. destruct (announcement_date d) as [dt|].
  - rewrite Z.eqb_eq. split; [eauto|]. by intros (? & [= <-] & ?).
  - split; [done|]. by intros (? & ? & _).
Qed.

Lemma announcement_date_valid d dt :
  announcement_date d = Some dt → (1 ≤ month dt ≤ 12)%Z.
Proof.
  unfold announcement_date. destruct (d !! "Date_of_Announcement"); [|done].
  intros H. by apply strptime_valid in H as (_ & ? & _).
Qed.

Lemma filter_nil_all {A} (f : A → bool) l :
  (∀ x, x ∈ l → f x = false) → List.filter f l = [].
Proof.
  induction l as [|x l IH]; intros H; simpl; [done|].
  rewrite (H x) by (by left). apply IH. intros y Hy. apply H. by right.
Qed.

(** X16.  For a month number outside 1..12 [filter_by_month] returns the
    empty list, whatever the records: a date that [strptime] accepts has
    a month between 1 and 12. *)
Theorem filter_by_month_out_of_range
    (dividends : list record) (month_number : Z) :
  ¬ (1 ≤ month_number ≤ 12)%Z →
  filter_by_month dividends month_number = [].
Proof.
  intros Hm. rewrite filter_by_month_filter. apply filter_nil_all.
  intros d _. destruct (announced_in month_number d) eqn:E; [|done].
  apply announced_in_month in E as (dt & Hd & <-).
  by apply announcement_date_valid in Hd.
Qed.

Lemma filter_by_month_out_of_range_witness :
  filter_by_month
    [ default ∅ (extract_dividend_data post_2024);
      default ∅ (extract_dividend_data post_tba) ] 13 = [].
Proof. apply filter_by_month_out_of_range. lia. Defined.

(** X17.  [filter_by_month] works record by record: the selection from
    two lists joined is the two selections joined, selecting twice for
    the same month is selecting once, and selecting for a second,
    different month leaves nothing. *)
Theorem filter_by_month_algebra
    (dividends more : list record) (month_number other : Z) :
  filter_by_month (dividends ++ more) month_number
  = filter_by_month dividends month_number
    ++ filter_by_month more month_number
  ∧ filter_by_month (filter_by_month dividends month_number) month_number
    = filter_by_month dividends month_number
  ∧ (other ≠ month_number →
     filter_by_month (filter_by_month dividends month_number) other = []).
Proof.
  rewrite !filter_by_month_filter. split_and!.
  - apply List.filter_app.
  - induction dividends as [|d ds IH]; simpl; [done|].
    destruct (announced_in month_number d) eqn:E; simpl; [|done].
    by rewrite E, IH.
  - intros Hne. apply filter_nil_all. intros d Hd.
    apply list_elem_of_In, filter_In in Hd as [_ Hd].
    apply announced_in_month in Hd as (dt & Hd & <-).
    unfold announced_in. rewrite Hd. by apply Z.eqb_neq.
Qed.

(** The months a record is counted in. *)
Lemma monthly_counts_cons d ds :
  sum_list (monthly_counts (d :: ds))
  = (if dated d then 1 else 0) + sum_list (monthly_counts ds).
Proof.
  unfold monthly_counts.
  assert (∀ ms : list nat,
    sum_list ((λ m, length (filter_by_month (d :: ds) (Z.of_nat m))) <$> ms)
    = sum_list ((λ m, if announced_in (Z.of_nat m) d then 1 else 0) <$> ms)
      + sum_list ((λ m, length (filter_by_month ds (Z.of_nat m))) <$> ms))
    as ->.
  { induction ms as [|m ms IH]; [done|]. rewrite !fmap_cons. simpl.
    rewrite IH, !filter_by_month_filter. simpl.
    destruct (announced_in (Z.of_nat m) d); simpl; lia. }
  f_equal. unfold dated, announced_in.
  destruct (announcement_date d) as [dt|] eqn:E.
  - rewrite bool_decide_eq_true_2 by eauto.
    apply announcement_date_valid in E.
    assert (∃ k, month dt = Z.of_nat k ∧ 1 ≤ k ≤ 12) as (k & -> & Hk).
    { exists (Z.to_nat (month dt)). lia. }
    assert (∀ a b : nat, (Z.of_nat a =? Z.of_nat b)%Z = (a =? b)) as Hnat.
    { intros a b. destruct (Nat.eqb_spec a b) as [-> |Hab].
      - apply Z.eqb_refl.
      - apply Z.eqb_neq. lia. }
    simpl. rewrite !Hnat.
    do 13 (destruct k as [|k]; [try lia; reflexivity|]). lia.
  - rewrite bool_decide_eq_false_2 by (by intros [? ?]). reflexivity.
Qed.

Lemma monthly_counts_sum dividends :
  sum_list (monthly_counts dividends) = length (List.filter dated dividends).
Proof.
  induction dividends as [|d ds IH]; [reflexivity|].
  rewrite monthly_counts_cons, IH. simpl. by destruct (dated d).
Qed.

(** X18.  The twelve monthly selections split the records whose
    announcement date parses: such a record is selected for the month of
    its date and for no other month number, and the sizes of the twelve
    selections add up to the number of such records. *)
Theorem months_partition (dividends : list record) :
  (∀ d dt, d ∈ dividends → announcement_date d = Some dt →
     (1 ≤ month dt ≤ 12)%Z
     ∧ ∀ m, d ∈ filter_by_month dividends m ↔ m = month dt)
  ∧ sum_list (monthly_counts dividends)
    = length (List.filter dated dividends).
Proof.
  split.
  - intros d dt Hin Hd. split; [by eapply announcement_date_valid|].
    intros m. rewrite filter_by_month_filter, list_elem_of_In, filter_In.
    rewrite <- list_elem_of_In, announced_in_month. split.
    + intros (_ & dt' & Hd' & <-). congruence.
    + intros ->. eauto.
  - apply monthly_counts_sum.
Qed.

Lemma filter_all {A} (f : A → bool) l :
  Forall (λ x, f x = true) l → List.filter f l = l.
Proof.
  induction 1 as [|x l Hx _ IH]; simpl; [done|]. by rewrite Hx, IH.
Qed.

(** X19.  The filter applied to what the scraper returns: every record
    selected for a month has an announcement date in that month, the
    month number is one of 1..12, and the year of the date is the cutoff
    year or later.  No record of the scraper's result fails to parse in
    the filter: the sizes of the twelve monthly selections add up to the
    size of the result. *)
Theorem scraped_then_filtered
    (fetch : str → response) (current_year num_years month_number : Z)
    (dividends : list record) (output : list message) :
  scrape_dividend_announcements fetch current_year num_years
    = Some (dividends, output) →
  Forall (λ d, ∃ ann_date, announcement_date d = Some ann_date
                 ∧ month ann_date = month_number
                 ∧ (1 ≤ month_number ≤ 12)%Z
                 ∧ (current_year - num_years ≤ year ann_date)%Z)
    (filter_by_month dividends month_number)
  ∧ sum_list (monthly_counts dividends) = length dividends.
Proof.
  intros Hs. unfold scrape_dividend_announcements in Hs.
  destruct (crawl_ends fetch current_year num_years) as (st & E & Hr & _).
  rewrite E in Hs. injection Hs as <- _.
  assert (Forall (λ d, ∃ ann_date, announcement_date d = Some ann_date
                         ∧ (current_year - num_years ≤ year ann_date)%Z)
            (all_dividends st)) as Hall.
  { revert Hr. apply reachable_found.
    by intros post d (_ & H)%in_range_dated. }
  split.
  - apply Forall_forall. intros d Hd.
    rewrite filter_by_month_filter in Hd.
    apply list_elem_of_In, filter_In in Hd as [Hd Hm].
    apply list_elem_of_In in Hd.
    apply announced_in_month in Hm as (dt & Hdt & <-).
    rewrite Forall_forall in Hall.
    destruct (Hall d Hd) as (dt' & Hdt' & Hy).
    exists dt. split; [done|]. split; [done|].
    split; [by eapply announcement_date_valid|]. congruence.
  - rewrite monthly_counts_sum. f_equal. apply filter_all.
    eapply Forall_impl; [exact Hall|]. intros d (dt & Hdt & _).
    unfold dated. apply bool_decide_eq_true_2. eauto.
Qed.

Lemma scraped_then_filtered_witness :
  ∃ dividends output,
    scrape_dividend_announcements sample_blog 2026 5
      = Some (dividends, output)
    ∧ Forall (λ d, ∃ ann_date, announcement_date d = Some ann_date
                     ∧ month ann_date = 7%Z
                     ∧ (1 ≤ 7 ≤ 12)%Z
                     ∧ (2026 - 5 ≤ year ann_date)%Z)
        (filter_by_month dividends 7)
    ∧ sum_list (monthly_counts dividends) = length dividends.
Proof.
  destruct (crawl_ends sample_blog 2026 5) as (st & E & _).
  exists (all_dividends st),
    (printed st ++ [MsgTotal (length (all_dividends st))]).
  assert (scrape_dividend_announcements sample_blog 2026 5
          = Some (all_dividends st,
                  printed st ++ [MsgTotal (length (all_dividends st))]))
    as Hs by (unfold scrape_dividend_announcements; by rewrite E).
  split; [exact Hs|].
  exact (scraped_then_filtered sample_blog 2026 5 7 _ _ Hs).
Defined.

(** ** The posts of a page *)

Lemma filter_sublist {A} (f g : A → bool) l :
  (∀ x, f x = true → g x = true) →
  List.filter f l `sublist_of` List.filter g l.
Proof.
  intros Hfg. induction l as [|x l IH]; simpl; [done|].
  destruct (f x) eqn:Ef.
  - rewrite (Hfg x Ef). by apply sublist_skip.
  - destruct (g x); [by apply sublist_cons|done].
Qed.

(** A tag with the class [post-outer] has a class with [post] in it. *)
Lemma post_outer_loose a :
  class_matches (ClassIs "post-outer") a = true →
  class_matches (ClassSearch post_or_entry_re) a = true.
Proof.
  unfold class_matches. destruct (attr_class a) as [tokens|]; [|done].
  assert (bool_decide (is_Some (re_search post_or_entry_re "post-outer"))
          = true) as Hs by (vm_compute; reflexivity).
  intros [H|H]%orb_prop.
  - apply orb_true_intro. left.
    apply existsb_exists in H as (t & Hin & Ht).
    apply bool_decide_eq_true_1 in Ht as ->.
    apply existsb_exists. eauto.
  - apply orb_true_intro. right.
    apply bool_decide_eq_true_1 in H. by rewrite H.
Qed.

Lemma selected_loose post :
  selected [("div" : str)] (ClassIs "post-outer") post = true →
  selected [("div" : str); ("article" : str)]
    (ClassSearch post_or_entry_re) post = true.
Proof.
  destruct post as [|name a contents]; [done|]. simpl.
  intros [Hn Hc]%andb_prop. apply andb_true_intro. split.
  - apply bool_decide_eq_true_1, list_elem_of_singleton in Hn as ->.
    apply bool_decide_eq_true_2. by left.
  - by apply post_outer_loose.
Qed.

(** X20.  The looser selector finds every post the primary selector
    finds, in the same order, so the posts of a page are always among
    what the looser selector finds, and a page has no posts only when the
    looser selector finds nothing.  Every post is a [div] or [article]
    tag below the root of the page. *)
Theorem find_posts_selection (soup : node) :
  find_all [("div" : str)] (ClassIs "post-outer") soup
    `sublist_of`
    find_all [("div" : str); ("article" : str)]
      (ClassSearch post_or_entry_re) soup
  ∧ find_posts soup
      `sublist_of`
      find_all [("div" : str); ("article" : str)]
        (ClassSearch post_or_entry_re) soup
  ∧ (find_posts soup = [] ↔
     find_all [("div" : str); ("article" : str)]
       (ClassSearch post_or_entry_re) soup = [])
  ∧ ∀ post, post ∈ find_posts soup →
      post ∈ descendants soup
      ∧ ∃ name a contents, post = Tag name a contents
          ∧ (name = ("div" : str) ∨ name = ("article" : str))
          ∧ is_Some (attr_class a).
Proof.
  assert (find_all [("div" : str)] (ClassIs "post-outer") soup
            `sublist_of`
            find_all [("div" : str); ("article" : str)]
              (ClassSearch post_or_entry_re) soup) as Hsub.
  { apply filter_sublist, selected_loose. }
  assert (find_posts soup
            `sublist_of`
            find_all [("div" : str); ("article" : str)]
              (ClassSearch post_or_entry_re) soup) as Hposts.
  { unfold find_posts.
    destruct (find_all [("div" : str)] _ soup) as [|p ps]; [done|exact Hsub]. }
  split_and!; [done|done| |].
  - split.
    + unfold find_posts.
      destruct (find_all [("div" : str)] _ soup) as [|p ps]; done.
    + intros E. rewrite E in Hposts. by apply sublist_nil_r.
  - intros post Hin.
    assert (post ∈ find_all [("div" : str); ("article" : str)]
              (ClassSearch post_or_entry_re) soup) as Hin'.
    { by eapply (sublist_subseteq _ _ Hposts). }
    unfold find_all in Hin'.
    apply list_elem_of_In, filter_In in Hin' as [Hd Hsel].
    split; [by apply list_elem_of_In|].
    destruct post as [|name a contents]; [done|].
    exists name, a, contents. simpl in Hsel.
    apply andb_prop in Hsel as [Hn Hc]. split_and!; [done| |].
    + apply bool_decide_eq_true_1 in Hn.
      apply elem_of_cons in Hn as [?|Hn]; [by left|].
      apply list_elem_of_singleton in Hn. by right.
    + destruct (attr_class a); [eauto|done].
Qed.

(** ** The questions of [main] *)

Section QuestionFacts.
Variable parse_int : str → option Z.

Lemma ask_years_step line stdin out :
  ask_years parse_int (line :: stdin) out
  = if good_years parse_int line then
      Some (default 0%Z (read_years parse_int line), stdin, out ++ [AskYears])
    else ask_years parse_int stdin (out ++ years_complaint parse_int line).
Proof.
  simpl. unfold good_years, years_complaint.
  destruct (read_years parse_int line) as [n|]; [|done].
  by destruct (0 <? n)%Z.
Qed.

Lemma ask_month_step line stdin out :
  ask_month parse_int (line :: stdin) out
  = if good_month parse_int line then
      Some (default 0%Z (read_month parse_int line), stdin, out ++ [AskMonth])
    else ask_month parse_int stdin (out ++ month_complaint parse_int line).
Proof.
  simpl. unfold good_month, month_complaint.
  destruct (read_month parse_int line) as [n|]; [|done].
  by destruct (_ && _).
Qed.

Lemma ask_years_inv stdin : ∀ out num_years rest out',
  ask_years parse_int stdin out = Some (num_years, rest, out') ↔
  ∃ rejected line,
    stdin = rejected ++ line :: rest
    ∧ Forall (λ l, good_years parse_int l = false) rejected
    ∧ read_years parse_int line = Some num_years
    ∧ (0 < num_years)%Z
    ∧ out' = out ++ flat_map (years_complaint parse_int) rejected
               ++ [AskYears].
Proof.
  induction stdin as [|l stdin IH]; intros out n rest out'.
  - split; [done|]. intros (rejected & line & E & _). by destruct rejected.
  - rewrite ask_years_step. destruct (good_years parse_int l) eqn:Eg.
    + unfold good_years in Eg.
      destruct (read_years parse_int l) as [k|] eqn:Ek; [|done].
      apply Z.ltb_lt in Eg. simpl. split.
      * intros [= <- <- <-]. exists [], l. by split_and!.
      * intros (rejected & line & E & Hrej & Hline & Hn & ->).
        destruct rejected as [|r rejected]; simpl in E.
        -- injection E as <- <-. simpl. congruence.
        -- injection E as <- _. apply Forall_cons in Hrej as [Hr _].
           unfold good_years in Hr. rewrite Ek in Hr.
           apply Z.ltb_ge in Hr. lia.
    + rewrite IH. split.
      * intros (rejected & line & -> & Hrej & Hline & Hn & ->).
        exists (l :: rejected), line. split_and!; [done| |done|done|].
        -- by constructor.
        -- simpl. by rewrite <- !app_assoc.
      * intros (rejected & line & E & Hrej & Hline & Hn & ->).
        destruct rejected as [|r rejected]; simpl in E.
        -- injection E as <- <-. unfold good_years in Eg.
           rewrite Hline in Eg. apply Z.ltb_ge in Eg. lia.
        -- injection E as <- ->. apply Forall_cons in Hrej as [_ Hrej].
           exists rejected, line. split_and!; [done..|].
           simpl. by rewrite <- !app_assoc.
Qed.

Lemma ask_month_inv stdin : ∀ out month_number rest out',
  ask_month parse_int stdin out = Some (month_number, rest, out') ↔
  ∃ rejected line,
    stdin = rejected ++ line :: rest
    ∧ Forall (λ l, good_month parse_int l = false) rejected
    ∧ read_month parse_int line = Some month_number
    ∧ (1 ≤ month_number ≤ 12)%Z
    ∧ out' = out ++ flat_map (month_complaint parse_int) rejected
               ++ [AskMonth].
Proof.
  induction stdin as [|l stdin IH]; intros out n rest out'.
  - split; [done|]. intros (rejected & line & E & _). by destruct rejected.
  - rewrite ask_month_step. destruct (good_month parse_int l) eqn:Eg.
    + unfold good_month in Eg.
      destruct (read_month parse_int l) as [k|] eqn:Ek; [|done].
      rewrite andb_true_iff, !Z.leb_le in Eg. simpl. split.
      * intros [= <- <- <-]. exists [], l. split_and!; try done; lia.
      * intros (rejected & line & E & Hrej & Hline & Hn & ->).
        destruct rejected as [|r rejected]; simpl in E.
        -- injection E as <- <-. simpl. congruence.
        -- injection E as <- _. apply Forall_cons in Hrej as [Hr _].
           unfold good_month in Hr. rewrite Ek in Hr.
           rewrite andb_false_iff, !Z.leb_gt in Hr. lia.
    + rewrite IH. split.
      * intros (rejected & line & -> & Hrej & Hline & Hn & ->).
        exists (l :: rejected), line.
        split_and!; [done|by constructor|done|lia|lia|].
        simpl. by rewrite <- !app_assoc.
      * intros (rejected & line & E & Hrej & Hline & Hn & ->).
        destruct rejected as [|r rejected]; simpl in E.
        -- injection E as <- <-. unfold good_month in Eg.
           rewrite Hline in Eg.
           rewrite andb_false_iff, !Z.leb_gt in Eg. lia.
        -- injection E as <- ->. apply Forall_cons in Hrej as [_ Hrej].
           exists rejected, line. split_and!; [done|done|done|lia|lia|].
           simpl. by rewrite <- !app_assoc.
Qed.
End QuestionFacts.

Lemma ask_years_eof parse_int stdin : ∀ out,
  ask_years parse_int stdin out = None ↔
  Forall (λ l, good_years parse_int l = false) stdin.
Proof.
  induction stdin as [|l stdin IH]; intros out; [done|].
  rewrite ask_years_step, Forall_cons.
  destruct (good_years parse_int l).
  - split; [done|]. by intros [? _].
  - rewrite IH. split; [done|]. by intros [_ ?].
Qed.

Lemma ask_month_eof parse_int stdin : ∀ out,
  ask_month parse_int stdin out = None ↔
  Forall (λ l, good_month parse_int l = false) stdin.
Proof.
  induction stdin as [|l stdin IH]; intros out; [done|].
  rewrite ask_month_step, Forall_cons.
  destruct (good_month parse_int l).
  - split; [done|]. by intros [? _].
  - rewrite IH. split; [done|]. by intros [_ ?].
Qed.

(** X21.  The first question of [main] is answered by the first line of
    the input that, stripped, is empty or is a number above zero; an
    empty line stands for 5.  Every line before it is answered by the
    question again and one complaint, and what follows it is left for
    the next question.  Without such a line the loop ends in the
    [EOFError] of [input]. *)
Theorem ask_years_answer
    (parse_int : str → option Z) (stdin : list str)
    (out : list console_line) :
  (∀ num_years rest out',
     ask_years parse_int stdin out = Some (num_years, rest, out') ↔
     ∃ rejected line,
       stdin = rejected ++ line :: rest
       ∧ Forall (λ l, good_years parse_int l = false) rejected
       ∧ (if nonempty (strip line) then parse_int (strip line)
          else Some 5%Z) = Some num_years
       ∧ (0 < num_years)%Z
       ∧ out' = out ++ flat_map (years_complaint parse_int) rejected
                  ++ [AskYears])
  ∧ (ask_years parse_int stdin out = None ↔
     Forall (λ l, good_years parse_int l = false) stdin).
Proof.
  split.
  - intros num_years rest out'. apply ask_years_inv.
  - apply ask_years_eof.
Qed.

(** X22.  The second question of [main] is answered by the first line of
    the input that, stripped, is a number from 1 to 12; there is no
    default.  Every line before it is answered by the question again and
    one complaint.  Without such a line the loop ends in the [EOFError]
    of [input]. *)
Theorem ask_month_answer
    (parse_int : str → option Z) (stdin : list str)
    (out : list console_line) :
  (∀ month_number rest out',
     ask_month parse_int stdin out = Some (month_number, rest, out') ↔
     ∃ rejected line,
       stdin = rejected ++ line :: rest
       ∧ Forall (λ l, good_month parse_int l = false) rejected
       ∧ parse_int (strip line) = Some month_number
       ∧ (1 ≤ month_number ≤ 12)%Z
       ∧ out' = out ++ flat_map (month_complaint parse_int) rejected
                  ++ [AskMonth])
  ∧ (ask_month parse_int stdin out = None ↔
     Forall (λ l, good_month parse_int l = false) stdin).
Proof.
  split.
  - intros month_number rest out'. apply ask_month_inv.
  - apply ask_month_eof.
Qed.

Lemma flat_map_length_2 {A B} (f : A → list B) l :
  (∀ x, length (f x) = 2) → length (flat_map f l) = 2 * length l.
Proof.
  intros Hf. induction l as [|x l IH]; [done|].
  simpl. rewrite length_app, Hf, IH. lia.
Qed.

(** X23.  When the two questions of [main] have been answered, the
    number of years is above zero and the month number is one of 1..12,
    so [month_names[month_number-1]] is an index from the front of the
    list and names a month.  The questions used up a prefix of the input
    of at least two lines, and printed two lines for every line used,
    less one for each of the two answers taken. *)
Theorem ask_validates
    (parse_int : str → option Z) (stdin rest : list str)
    (num_years month_number : Z) (out : list console_line) :
  ask parse_int stdin = Some (num_years, month_number, rest, out) →
  (0 < num_years)%Z
  ∧ (1 ≤ month_number ≤ 12)%Z
  ∧ (∃ name, getitem month_names (month_number - 1) = Some name
       ∧ month_names !! Z.to_nat (month_number - 1) = Some name)
  ∧ ∃ used, stdin = used ++ rest ∧ 2 ≤ length used
      ∧ length out + 2 = 2 * length used.
Proof.
  unfold ask.
  destruct (ask_years parse_int stdin []) as [[[ny stdin'] out1]|] eqn:Ey;
    [|done].
  destruct (ask_month parse_int stdin' out1) as [[[m stdin''] out2]|] eqn:Em;
    [|done].
  intros [= -> -> -> ->].
  apply ask_years_inv in Ey as (rej1 & l1 & -> & _ & _ & Hy & ->).
  apply ask_month_inv in Em as (rej2 & l2 & -> & _ & _ & Hm & ->).
  split; [done|]. split; [done|]. split.
  - unfold getitem. destruct (Z.leb_spec 0 (month_number - 1)); [|lia].
    assert (Z.to_nat (month_number - 1) < length month_names) as Hlt
      by (simpl; lia).
    apply lookup_lt_is_Some_2 in Hlt as [name Hname]. eauto.
  - exists (rej1 ++ l1 :: rej2 ++ [l2]). split.
    + rewrite <- app_assoc. simpl. by rewrite <- app_assoc.
    + rewrite !length_app. simpl. rewrite !length_app. simpl.
      rewrite (flat_map_length_2 (years_complaint parse_int) rej1) by done.
      rewrite (flat_map_length_2 (month_complaint parse_int) rej2) by done.
      lia.
Qed.

Lemma ask_validates_witness :
  (0 < 5)%Z
  ∧ (1 ≤ 7 ≤ 12)%Z
  ∧ (∃ name, getitem month_names (7 - 1) = Some name
       ∧ month_names !! Z.to_nat (7 - 1) = Some name)
  ∧ ∃ used,
      [ ("five" : str); ("0" : str); ("  " : str); ("13" : str);
        (" 7 " : str); ("y" : str) ] = used ++ [("y" : str)]
      ∧ 2 ≤ length used
      ∧ length [AskYears; SayInvalid; AskYears; SayPositive; AskYears;
                AskMonth; SayRange; AskMonth] + 2 = 2 * length used.
Proof.
  apply (ask_validates digits_int
           [ ("five" : str); ("0" : str); ("  " : str); ("13" : str);
             (" 7 " : str); ("y" : str) ]).
  vm_compute. reflexivity.
Defined.

(** ** Where the crawl starts *)

Lemma reachable_first_request fetch current_year num_years st :
  reachable fetch current_year num_years st →
  st = initial num_years ∨ ∃ later, requests st = base_url :: later.
Proof.
  induction 1 as [|st st' Hr IH Hs]; [by left|]. right.
  apply step_inv in Hs as (url & rest & Hq & _ & ->).
  destruct IH as [-> |(later & Hreq)].
  - simpl in Hq. injection Hq as <- <-.
    destruct (iteration_count fetch current_year num_years base_url []
                (initial num_years)) as [(Hv & _)|(_ & _ & -> & _)].
    + simpl in Hv. by apply not_elem_of_empty in Hv.
    + by exists [].
  - destruct (iteration_count fetch current_year num_years url rest st)
      as [(_ & _ & -> & _)|(_ & _ & -> & _)]; rewrite Hreq; eauto.
Qed.

(** X24.  With a number of years above zero, as [main] passes it, the
    crawl requests at least one page, and the first page it requests is
    the front page of the blog. *)
Theorem crawl_starts_at_base_url
    (fetch : str → response) (current_year num_years : Z) :
  (0 < num_years)%Z →
  ∃ st later,
    crawl fetch current_year num_years = Some st
    ∧ requests st = base_url :: later
    ∧ (1 ≤ page_count st)%Z.
Proof.
  intros Hy.
  destruct (crawl_ends fetch current_year num_years) as (st & E & Hr & Hend).
  pose proof (reachable_consistent _ _ _ _ Hr) as (_ & _ & Hc).
  destruct (reachable_first_request _ _ _ _ Hr) as [-> |(later & Hreq)].
  - unfold step in Hend. simpl in Hend. unfold max_pages in Hend.
    destruct (Z.ltb_spec 0 (num_years * 20)); [done|lia].
  - exists st, later. split_and!; [done..|].
    rewrite Hc, Hreq. simpl. lia.
Qed.

Lemma crawl_starts_at_base_url_witness :
  ∃ st later,
    crawl sample_blog 2026 5 = Some st
    ∧ requests st = base_url :: later
    ∧ (1 ≤ page_count st)%Z.
Proof. apply (crawl_starts_at_base_url sample_blog 2026 5). lia. Defined.
